(** * LightPeerChain: header synchronisation and on-demand lookups

    A shallow embedding of [p2p/lightchain.py].  The service is
    single-threaded cooperative code: every coroutine is a function from
    the service state to a result (a value or the exception raised), the
    state it leaves behind and the calls it made on its collaborators, in
    program order.

    - The collaborators outside the file are interfaces: the header
      database, the VM rules, the peer pool's choice of peer, the
      hashing, trie and RLP primitives and the request-id generator.
    - The peers are a script: each time [_wait_for_reply] parks, the next
      [window] of the script says which messages [_run] dispatches in the
      meantime and what wakes the waiter if none of them fulfils it.  When
      the script is over nobody answers and every wait times out.
    - The cancel token is observed where a reply is awaited; the awaits on
      the header database complete.  Logging is left out.
    - The exception classes are taken to be unrelated to each other. *)

From Stdlib Require Import ZArith QArith.QArith_base Strings.Byte.
From stdpp Require Import base option list gmap.

Local Open Scope Z_scope.

(** ** Data model *)

Definition bytes := list byte.
Definition Hash32 := bytes.
Definition Address := bytes.

#[global] Instance byte_eq_dec : EqDecision byte.
Proof.
  intros a b. destruct (N.eq_dec (Byte.to_N a) (Byte.to_N b)) as [E|E].
  - left. apply (f_equal Byte.of_N) in E. rewrite !Byte.of_to_N in E. congruence.
  - right. congruence.
Defined.

(** [hash] is a derived attribute of a header (the digest of its encoding);
    the service only ever reads it, so it is carried with the header. *)
Record BlockHeader := {
  block_number : Z;
  parent_hash : Hash32;
  state_root : Hash32;
  hash : Hash32;
}.

Definition GENESIS_BLOCK_NUMBER : Z := 0.

(** Modelled from the spec: [BlockHeader.is_genesis] is declared in
    [evm/rlp/headers.py]; the data model gives it as
    [block_number == 0]. *)
Definition is_genesis (header : BlockHeader) : bool :=
  block_number header =? GENESIS_BLOCK_NUMBER.

Record HeadInfo := {
  hi_block_hash : Hash32;
  hi_block_number : Z;
  hi_total_difficulty : Z;
  hi_reorg_depth : Z;
}.

(** A peer object: dictionaries keyed by a peer are keyed by its identity. *)
Record LESPeer := {
  peer_id : nat;
  max_headers_fetch : Z;
}.

Record Account := {
  nonce : Z;
  balance : Z;
  storage_root : Hash32;
  code_hash : Hash32;
}.

Definition BlockBody := bytes.
Definition Receipt := bytes.

(** A decoded LES message that is a [dict]: the optional [request_id] and
    the named payload fields.  A missing key is [None]; subscripting it
    raises [KeyError]. *)
Record Msg := {
  request_id : option Z;
  headers : option (list BlockHeader);
  bodies : option (list BlockBody);
  receipts : option (list (list Receipt));
  proof : option (list bytes);
  codes : option (list bytes);
}.

(** What [msg_queue.get()] hands to [_run], by the branch it selects:
    [isinstance(cmd, les.Announce)] (with [cmd.as_head_info(msg)]),
    [isinstance(msg, dict)], anything else. *)
Inductive Inbound :=
| InAnnounce (peer : LESPeer) (head_info : HeadInfo)
| InDict (peer : LESPeer) (msg : Msg)
| InOther (peer : LESPeer).

Inductive DisconnectReason := subprotocol_error | timeout.

Inductive les_failure :=
| NoCommonAncestors (peer : LESPeer)
| InvalidHeader (peer : LESPeer) (header : BlockHeader).

Inductive exception :=
| ValidationError
| HeaderNotFound
| BlockNotFound
| BadLESResponse
| EmptyGetBlockHeadersReply
| LESAnnouncementProcessingError (why : les_failure)
| OperationCancelled
| TooManyTimeouts
| TimeoutError
| KeyError
| TypeError
| BadTrieProof
| DecodingError.

(** The typed LES requests of [peer.sub_proto]. *)
Inductive request :=
| send_get_block_headers (block_number_or_hash : Z + Hash32) (max_headers : Z)
    (rid : Z) (reverse : option bool)
| send_get_block_bodies (hashes : list Hash32) (rid : Z)
| send_get_receipts (block_hash : Hash32) (rid : Z)
| send_get_proof (block_hash account_key key : bytes) (from_level : Z) (rid : Z)
| send_get_contract_code (block_hash key : bytes) (rid : Z).

(** Calls on the collaborators, in program order. *)
Inductive event :=
| EvSend (peer : LESPeer) (r : request)
| EvValidate (header parent : BlockHeader) (accepted : bool)
| EvPersist (header : BlockHeader)
| EvSleep (seconds : Q)
| EvDisconnect (peer : LESPeer) (reason : DisconnectReason)
| EvCancel (peer : LESPeer)
| EvDeliver (rid : Z) (callback : nat) (msg : Msg).

(** How a suspended [_wait_for_reply] ends when no reply reaches it. *)
Inductive wait_end := TimedOut | Cancelled.

(** One suspension of [_wait_for_reply]: the messages [_run] takes from the
    message queue while the waiter is parked, and what wakes the waiter if
    none of them fulfils it. *)
Record window := {
  inbound : list Inbound;
  ending : wait_end;
}.

Definition idle_window : window := {| inbound := []; ending := TimedOut |}.

(** ** Interfaces of the collaborators *)

Class AsyncHeaderDB (DB : Type) := {
  coro_get_canonical_head : DB → BlockHeader;
  coro_header_exists : DB → Hash32 → bool;
  (* [None]: raises HeaderNotFound *)
  coro_get_block_header_by_hash : DB → Hash32 → option BlockHeader;
  coro_persist_header : DB → BlockHeader → DB;
}.

Class ChainClass := {
  VM : Type;
  get_vm_class_for_block_number : Z → VM;
  (* [false]: raises ValidationError *)
  validate_header : VM → BlockHeader → BlockHeader → bool;
}.

Class Primitives := {
  keccak : bytes → bytes;
  (* HexaryTrie.get_from_proof(root, key, proof) *)
  get_from_proof : Hash32 → bytes → list bytes → exception + bytes;
  (* rlp.decode(_, sedes=Account) *)
  rlp_decode_account : bytes → exception + Account;
  (* the successive values of p2p.utils.gen_request_id() *)
  request_ids : nat → Z;
}.

(** Modelled from the spec: [PeerPool] lives in [p2p/peer.py]; its
    [highest_td_peer] picks, among the connected peers, the one with the
    greatest known total difficulty.  What the pool knows of a peer's
    head is what the service recorded for it ([peer.head_info],
    [peer.head_td]). *)
Class PeerPool := {
  pool_highest_td_peer : gmap nat HeadInfo → LESPeer;
}.

(** The five [alru_cache] stores, most recently used first. *)
Record LookupCaches := {
  header_cache : list (Hash32 * BlockHeader);
  body_cache : list (Hash32 * BlockBody);
  receipts_cache : list (Hash32 * list Receipt);
  account_cache : list ((Hash32 * Address) * Account);
  code_cache : list ((Hash32 * bytes) * bytes);
}.

Section LightPeerChain.
Context {DB : Type} `{!AsyncHeaderDB DB} `{!ChainClass} `{!Primitives} {pool : PeerPool}.

Record state := {
  headerdb : DB;
  head_infos : gmap nat HeadInfo;                  (* peer.head_info, by peer *)
  _announcement_queue : list (LESPeer * HeadInfo);
  _last_processed_announcements : gmap nat HeadInfo;
  _pending_replies : gmap Z nat;                   (* request id ↦ callback *)
  callbacks : list (option Msg);                   (* [reply] of each callback closure *)
  issued : nat;                                    (* request ids drawn so far *)
  caches : LookupCaches;
  network : list window;                           (* what the peers will do *)
}.

(** [self.peer_pool.highest_td_peer] *)
Definition highest_td_peer (st : state) : LESPeer :=
  pool_highest_td_peer (head_infos st).

Definition set_headerdb (f : DB → DB) (st : state) : state :=
  {| headerdb := f (headerdb st);
     head_infos := head_infos st; _announcement_queue := _announcement_queue st;
     _last_processed_announcements := _last_processed_announcements st;
     _pending_replies := _pending_replies st; callbacks := callbacks st;
     issued := issued st; caches := caches st; network := network st |}.

Definition set_head_infos (f : gmap nat HeadInfo → gmap nat HeadInfo) (st : state) : state :=
  {| headerdb := headerdb st;
     head_infos := f (head_infos st); _announcement_queue := _announcement_queue st;
     _last_processed_announcements := _last_processed_announcements st;
     _pending_replies := _pending_replies st; callbacks := callbacks st;
     issued := issued st; caches := caches st; network := network st |}.

Definition set_announcement_queue
    (f : list (LESPeer * HeadInfo) → list (LESPeer * HeadInfo)) (st : state) : state :=
  {| headerdb := headerdb st;
     head_infos := head_infos st; _announcement_queue := f (_announcement_queue st);
     _last_processed_announcements := _last_processed_announcements st;
     _pending_replies := _pending_replies st; callbacks := callbacks st;
     issued := issued st; caches := caches st; network := network st |}.

Definition set_last_processed_announcements
    (f : gmap nat HeadInfo → gmap nat HeadInfo) (st : state) : state :=
  {| headerdb := headerdb st;
     head_infos := head_infos st; _announcement_queue := _announcement_queue st;
     _last_processed_announcements := f (_last_processed_announcements st);
     _pending_replies := _pending_replies st; callbacks := callbacks st;
     issued := issued st; caches := caches st; network := network st |}.

Definition set_pending_replies (f : gmap Z nat → gmap Z nat) (st : state) : state :=
  {| headerdb := headerdb st;
     head_infos := head_infos st; _announcement_queue := _announcement_queue st;
     _last_processed_announcements := _last_processed_announcements st;
     _pending_replies := f (_pending_replies st); callbacks := callbacks st;
     issued := issued st; caches := caches st; network := network st |}.

Definition set_callbacks (f : list (option Msg) → list (option Msg)) (st : state) : state :=
  {| headerdb := headerdb st;
     head_infos := head_infos st; _announcement_queue := _announcement_queue st;
     _last_processed_announcements := _last_processed_announcements st;
     _pending_replies := _pending_replies st; callbacks := f (callbacks st);
     issued := issued st; caches := caches st; network := network st |}.

Definition set_issued (f : nat → nat) (st : state) : state :=
  {| headerdb := headerdb st;
     head_infos := head_infos st; _announcement_queue := _announcement_queue st;
     _last_processed_announcements := _last_processed_announcements st;
     _pending_replies := _pending_replies st; callbacks := callbacks st;
     issued := f (issued st); caches := caches st; network := network st |}.

Definition set_caches (f : LookupCaches → LookupCaches) (st : state) : state :=
  {| headerdb := headerdb st;
     head_infos := head_infos st; _announcement_queue := _announcement_queue st;
     _last_processed_announcements := _last_processed_announcements st;
     _pending_replies := _pending_replies st; callbacks := callbacks st;
     issued := issued st; caches := f (caches st); network := network st |}.

Definition set_network (f : list window → list window) (st : state) : state :=
  {| headerdb := headerdb st;
     head_infos := head_infos st; _announcement_queue := _announcement_queue st;
     _last_processed_announcements := _last_processed_announcements st;
     _pending_replies := _pending_replies st; callbacks := callbacks st;
     issued := issued st; caches := caches st; network := f (network st) |}.

(** ** The coroutine monad: result or exception, final state, calls made *)

Inductive result (A : Type) :=
| Ok (a : A)
| Raise (e : exception).
Global Arguments Ok {A} a.
Global Arguments Raise {A} e.

Definition M (A : Type) : Type := state → result A * state * list event.

Definition ret {A} (a : A) : M A := fun st => (Ok a, st, []).
Definition raise {A} (e : exception) : M A := fun st => (Raise e, st, []).

Definition bind {A B} (m : M A) (k : A → M B) : M B := fun st =>
  match m st with
  | (Ok a, st1, ev1) => let '(r, st2, ev2) := k a st1 in (r, st2, ev1 ++ ev2)
  | (Raise e, st1, ev1) => (Raise e, st1, ev1)
  end.

(** [try: m except handles: h]; exceptions outside [handles] propagate. *)
Definition try_except {A} (m : M A) (handles : exception → bool)
    (h : exception → M A) : M A := fun st =>
  match m st with
  | (Ok a, st1, ev1) => (Ok a, st1, ev1)
  | (Raise e, st1, ev1) =>
      if handles e then let '(r, st2, ev2) := h e st1 in (r, st2, ev1 ++ ev2)
      else (Raise e, st1, ev1)
  end.

Definition get : M state := fun st => (Ok st, st, []).
Definition modify (f : state → state) : M unit := fun st => (Ok tt, f st, []).
Definition emit (e : event) : M unit := fun st => (Ok tt, st, [e]).

#[local] Instance M_ret : MRet M := @ret.
#[local] Instance M_bind : MBind M := λ A B k m, bind m k.

(** ** The message loop: one turn of [_run] *)

Definition _run_step (x : Inbound) : M unit :=
  match x with
  | InAnnounce peer head_info =>
      modify (set_head_infos <[peer_id peer := head_info]>) ;;
      modify (set_announcement_queue (λ q, q ++ [(peer, head_info)]))
  | InDict peer msg =>
      match request_id msg with
      | Some rid =>
          st ← get;
          match _pending_replies st !! rid with
          | Some callback =>
              (* callback = self._pending_replies.pop(request_id); callback(msg) *)
              modify (set_pending_replies (delete rid)) ;;
              emit (EvDeliver rid callback msg) ;;
              modify (set_callbacks <[callback := Some msg]>)
          | None => ret tt
          end
      | None => ret tt
      end
  | InOther peer => ret tt
  end.

Fixpoint run_inbound (xs : list Inbound) : M unit :=
  match xs with
  | [] => ret tt
  | x :: xs' => _run_step x ;; run_inbound xs'
  end.

(** ** Request/reply correlation *)

Definition gen_request_id : M Z := fun st =>
  (Ok (request_ids (issued st)), set_issued S st, []).

(** The next suspension: when the peers have nothing more to say the
    waiter is woken by its timeout. *)
Definition next_window : M window := fun st =>
  match network st with
  | [] => (Ok idle_window, st, [])
  | w :: ws => (Ok w, set_network (λ _, ws) st, [])
  end.

Definition wake_error (w : window) : exception :=
  match ending w with
  | TimedOut => TimeoutError
  | Cancelled => OperationCancelled
  end.

Definition _wait_for_reply (rid : Z) : M Msg :=
  st ← get;
  let callback := length (callbacks st) in
  (* reply = None; got_reply = asyncio.Event() *)
  modify (set_callbacks (λ c, c ++ [None])) ;;
  modify (set_pending_replies <[rid := callback]>) ;;
  (* await self.wait(got_reply.wait(), timeout=self.reply_timeout) *)
  w ← next_window;
  run_inbound (inbound w) ;;
  st' ← get;
  match callbacks st' !! callback with
  | Some (Some reply) => ret reply
  | _ => raise (wake_error w)
  end.

(** [reply['key']] *)
Definition getitem {A} (field : option A) : M A :=
  match field with
  | Some v => ret v
  | None => raise KeyError
  end.

(** ** Header synchronisation *)

Definition _fetch_headers_starting_at (peer : LESPeer) (start_block : Z)
    : M (list BlockHeader) :=
  rid ← gen_request_id;
  emit (EvSend peer
    (send_get_block_headers (inl start_block) (max_headers_fetch peer) rid (Some false))) ;;
  reply ← _wait_for_reply rid;
  hs ← getitem (headers reply);
  match hs with
  | [] => raise EmptyGetBlockHeadersReply
  | _ => ret hs
  end.

Definition max_consecutive_timeouts : nat := 5.

Definition is_TimeoutError (e : exception) : bool :=
  match e with TimeoutError => true | _ => false end.

(** [for i in range(n): try: return ... except TimeoutError: sleep(0.5)],
    then [raise TooManyTimeouts()]. *)
Fixpoint fetch_attempts (n : nat) (start_block : Z) (peer : LESPeer)
    : M (list BlockHeader) :=
  match n with
  | O => raise TooManyTimeouts
  | S n' =>
      try_except (_fetch_headers_starting_at peer start_block) is_TimeoutError
        (λ _, emit (EvSleep (1 # 2)) ;; fetch_attempts n' start_block peer)
  end.

Definition fetch_headers (start_block : Z) (peer : LESPeer) : M (list BlockHeader) :=
  if start_block =? GENESIS_BLOCK_NUMBER then raise ValidationError
  else fetch_attempts max_consecutive_timeouts start_block peer.

Definition persist_header (header : BlockHeader) : M unit :=
  emit (EvPersist header) ;;
  modify (set_headerdb (λ db, coro_persist_header db header)).

Fixpoint persist_headers (hs : list BlockHeader) : M unit :=
  match hs with
  | [] => ret tt
  | header :: hs' => persist_header header ;; persist_headers hs'
  end.

Definition is_EmptyGetBlockHeadersReply (e : exception) : bool :=
  match e with EmptyGetBlockHeadersReply => true | _ => false end.

Definition get_sync_start_block (peer : LESPeer) (head_info : HeadInfo) : M Z :=
  st ← get;
  let chain_head := coro_get_canonical_head (headerdb st) in
  let last_peer_announcement := _last_processed_announcements st !! peer_id peer in
  start_block ←
    (if block_number chain_head =? GENESIS_BLOCK_NUMBER then
       ret (GENESIS_BLOCK_NUMBER + 1)
     else match last_peer_announcement with
          | None =>
              let oldest_ancestor_to_consider :=
                Z.max (GENESIS_BLOCK_NUMBER + 1)
                      (block_number chain_head - max_headers_fetch peer + 1) in
              hs ← try_except (fetch_headers oldest_ancestor_to_consider peer)
                     is_EmptyGetBlockHeadersReply
                     (λ _, raise (LESAnnouncementProcessingError (NoCommonAncestors peer)));
              persist_headers hs ;;
              ret (block_number chain_head)
          | Some last =>
              ret (hi_block_number last - hi_reorg_depth head_info)
          end);
  ret (Z.max start_block (GENESIS_BLOCK_NUMBER + 1)).

Definition _validate_header (header : BlockHeader) : M unit :=
  if is_genesis header then raise ValidationError
  else
    st ← get;
    match coro_get_block_header_by_hash (headerdb st) (parent_hash header) with
    | None => raise HeaderNotFound
    | Some parent_header =>
        let vm := get_vm_class_for_block_number (block_number header) in
        let accepted := validate_header vm header parent_header in
        emit (EvValidate header parent_header accepted) ;;
        if accepted then ret tt else raise ValidationError
    end.

Definition is_ValidationError (e : exception) : bool :=
  match e with ValidationError => true | _ => false end.

(** The loop of [_import_headers_from_peer], threading [new_tip]. *)
Fixpoint import_from (new_tip : option Z) (hs : list BlockHeader) (peer : LESPeer)
    : M (option Z) :=
  match hs with
  | [] => ret new_tip
  | header :: hs' =>
      try_except (_validate_header header) is_ValidationError
        (λ _, raise (LESAnnouncementProcessingError (InvalidHeader peer header))) ;;
      persist_header header ;;
      import_from (Some (block_number header)) hs' peer
  end.

Definition _import_headers_from_peer (hs : list BlockHeader) (peer : LESPeer)
    : M (option Z) :=
  import_from None hs peer.

(** The [while] loop of [process_announcement].  [None] is returned when
    [fuel] iterations were not enough. *)
Fixpoint sync_loop (fuel : nat) (peer : LESPeer) (head_info : HeadInfo)
    (start_block : Z) (st : state) : option (result unit * state * list event) :=
  if start_block <? hi_block_number head_info then
    match fuel with
    | O => None
    | S fuel' =>
        match fetch_headers start_block peer st with
        | (Raise e, st1, ev1) => Some (Raise e, st1, ev1)
        | (Ok batch, st1, ev1) =>
            match _import_headers_from_peer batch peer st1 with
            | (Raise e, st2, ev2) => Some (Raise e, st2, ev1 ++ ev2)
            | (Ok None, st2, ev2) =>
                (* start_block = None; None < head_info.block_number *)
                Some (Raise TypeError, st2, ev1 ++ ev2)
            | (Ok (Some new_tip), st2, ev2) =>
                match sync_loop fuel' peer head_info new_tip st2 with
                | Some (r, st3, ev3) => Some (r, st3, ev1 ++ ev2 ++ ev3)
                | None => None
                end
            end
        end
    end
  else Some (Ok tt, st, []).

(** Every iteration that goes on consumes a [window], so one more than the
    number of windows left is always enough fuel (see
    [process_announcement_total]). *)
Definition process_announcement (peer : LESPeer) (head_info : HeadInfo) (st : state)
    : option (result unit * state * list event) :=
  if coro_header_exists (headerdb st) (hi_block_hash head_info) then
    Some (Ok tt, st, [])
  else
    match get_sync_start_block peer head_info st with
    | (Raise e, st1, ev1) => Some (Raise e, st1, ev1)
    | (Ok start_block, st1, ev1) =>
        match sync_loop (S (length (network st1))) peer head_info start_block st1 with
        | Some (r, st2, ev2) => Some (r, st2, ev1 ++ ev2)
        | None => None
        end
    end.

(** ** Announcement processor *)

Definition drop_peer (peer : LESPeer) : M unit :=
  modify (set_last_processed_announcements (delete (peer_id peer))) ;;
  emit (EvCancel peer).

Definition disconnect_peer (peer : LESPeer) (reason : DisconnectReason) : M unit :=
  emit (EvDisconnect peer reason) ;;
  drop_peer peer.

Inductive loop_control := Continue | Break.

(** The body of the [while self.is_running] loop of
    [_process_announcements], after an announcement was dequeued. *)
Definition _process_announcements (peer : LESPeer) (head_info : HeadInfo) (st : state)
    : option (result loop_control * state * list event) :=
  match process_announcement peer head_info st with
  | None => None
  | Some (Ok _, st1, ev1) =>
      Some (Ok Continue,
            set_last_processed_announcements <[peer_id peer := head_info]> st1, ev1)
  | Some (Raise OperationCancelled, st1, ev1) => Some (Ok Break, st1, ev1)
  | Some (Raise (LESAnnouncementProcessingError _), st1, ev1) =>
      let '(_, st2, ev2) := disconnect_peer peer subprotocol_error st1 in
      Some (Ok Continue, st2, ev1 ++ ev2)
  | Some (Raise TooManyTimeouts, st1, ev1) =>
      let '(_, st2, ev2) := disconnect_peer peer timeout st1 in
      Some (Ok Continue, st2, ev1 ++ ev2)
  | Some (Raise _, st1, ev1) =>
      let '(_, st2, ev2) := drop_peer peer st1 in
      Some (Ok Continue, st2, ev1 ++ ev2)
  end.

(** ** On-demand lookups *)

Fixpoint cache_get {K V} `{EqDecision K} (k : K) (c : list (K * V)) : option V :=
  match c with
  | [] => None
  | (k', v) :: c' => if decide (k' = k) then Some v else cache_get k c'
  end.

Fixpoint cache_remove {K V} `{EqDecision K} (k : K) (c : list (K * V)) : list (K * V) :=
  match c with
  | [] => []
  | (k', v) :: c' => if decide (k' = k) then cache_remove k c' else (k', v) :: cache_remove k c'
  end.

(** Modelled from the spec: the decorator [alru_cache(maxsize, cache_exceptions=False)]
    comes from the [async_lru] package.  A lookup is memoized in an LRU
    store of capacity [maxsize]; a successful result is stored (the least
    recently used entry leaves when the store is full), a failure is not
    stored. *)
Definition alru_cache {K V} `{EqDecision K} (maxsize : nat)
    (load : LookupCaches → list (K * V))
    (store : list (K * V) → LookupCaches → LookupCaches)
    (fn : K → M V) (k : K) : M V :=
  st ← get;
  match cache_get k (load (caches st)) with
  | Some v =>
      modify (set_caches (λ c, store ((k, v) :: cache_remove k (load c)) c)) ;;
      ret v
  | None =>
      v ← fn k;
      modify (set_caches (λ c, store (take maxsize ((k, v) :: cache_remove k (load c))) c)) ;;
      ret v
  end.

Definition store_header_cache (x : list (Hash32 * BlockHeader)) (c : LookupCaches) :=
  {| header_cache := x; body_cache := body_cache c; receipts_cache := receipts_cache c;
     account_cache := account_cache c; code_cache := code_cache c |}.

Definition store_body_cache (x : list (Hash32 * BlockBody)) (c : LookupCaches) :=
  {| header_cache := header_cache c; body_cache := x; receipts_cache := receipts_cache c;
     account_cache := account_cache c; code_cache := code_cache c |}.

Definition store_receipts_cache (x : list (Hash32 * list Receipt)) (c : LookupCaches) :=
  {| header_cache := header_cache c; body_cache := body_cache c; receipts_cache := x;
     account_cache := account_cache c; code_cache := code_cache c |}.

Definition store_account_cache (x : list ((Hash32 * Address) * Account)) (c : LookupCaches) :=
  {| header_cache := header_cache c; body_cache := body_cache c;
     receipts_cache := receipts_cache c; account_cache := x; code_cache := code_cache c |}.

Definition store_code_cache (x : list ((Hash32 * bytes) * bytes)) (c : LookupCaches) :=
  {| header_cache := header_cache c; body_cache := body_cache c;
     receipts_cache := receipts_cache c; account_cache := account_cache c; code_cache := x |}.

Definition _get_block_header_by_hash (peer : LESPeer) (block_hash : Hash32)
    : M BlockHeader :=
  rid ← gen_request_id;
  let max_headers := 1 in
  emit (EvSend peer (send_get_block_headers (inr block_hash) max_headers rid None)) ;;
  reply ← _wait_for_reply rid;
  hs ← getitem (headers reply);
  match hs with
  | [] => raise HeaderNotFound
  | header :: _ =>
      if decide (hash header = block_hash) then ret header else raise BadLESResponse
  end.

Definition _get_proof (peer : LESPeer) (block_hash account_key key : bytes)
    (from_level : Z) : M (list bytes) :=
  rid ← gen_request_id;
  emit (EvSend peer (send_get_proof block_hash account_key key from_level rid)) ;;
  reply ← _wait_for_reply rid;
  getitem (proof reply).

(** A library call that returns or raises. *)
Definition call {A} (r : exception + A) : M A :=
  match r with
  | inl e => raise e
  | inr a => ret a
  end.

Definition get_block_header_by_hash : Hash32 → M BlockHeader :=
  alru_cache 1024 header_cache store_header_cache (λ block_hash,
    st ← get;
    _get_block_header_by_hash (highest_td_peer st) block_hash).

Definition get_block_body_by_hash : Hash32 → M BlockBody :=
  alru_cache 1024 body_cache store_body_cache (λ block_hash,
    st ← get;
    let peer := highest_td_peer st in
    rid ← gen_request_id;
    emit (EvSend peer (send_get_block_bodies [block_hash] rid)) ;;
    reply ← _wait_for_reply rid;
    bs ← getitem (bodies reply);
    match bs with
    | [] => raise BlockNotFound
    | body :: _ => ret body
    end).

Definition get_receipts : Hash32 → M (list Receipt) :=
  alru_cache 1024 receipts_cache store_receipts_cache (λ block_hash,
    st ← get;
    let peer := highest_td_peer st in
    rid ← gen_request_id;
    emit (EvSend peer (send_get_receipts block_hash rid)) ;;
    reply ← _wait_for_reply rid;
    rs ← getitem (receipts reply);
    match rs with
    | [] => raise BlockNotFound
    | r :: _ => ret r
    end).

(** The body of [get_account], under its cache decorator below. *)
Definition get_account_uncached (block_hash : Hash32) (address : Address) : M Account :=
  st ← get;
  let peer := highest_td_peer st in
  let key := keccak address in
  prf ← _get_proof peer block_hash [] key 0;
  header ← _get_block_header_by_hash peer block_hash;
  rlp_account ← call (get_from_proof (state_root header) key prf);
  call (rlp_decode_account rlp_account).

Definition get_account (block_hash : Hash32) (address : Address) : M Account :=
  alru_cache 1024 account_cache store_account_cache
    (λ k, get_account_uncached k.1 k.2) (block_hash, address).

Definition get_contract_code (block_hash : Hash32) (key : bytes) : M bytes :=
  alru_cache 1024 code_cache store_code_cache (λ k,
    st ← get;
    let peer := highest_td_peer st in
    rid ← gen_request_id;
    emit (EvSend peer (send_get_contract_code k.1 k.2 rid)) ;;
    reply ← _wait_for_reply rid;
    cs ← getitem (codes reply);
    match cs with
    | [] => ret []
    | code :: _ => ret code
    end) (block_hash, key).

End LightPeerChain.

Arguments state DB : clear implicits.

(** ** A small concrete world, used to run the service on explicit inputs *)

Module Sample.

(** A header database kept as the list of persisted headers, latest first.
    The canonical head is the latest persisted header of greatest number. *)
Definition ListDB := list BlockHeader.

Fixpoint find_header (db : ListDB) (h : Hash32) : option BlockHeader :=
  match db with
  | [] => None
  | x :: db' => if decide (hash x = h) then Some x else find_header db' h
  end.

Definition genesis : BlockHeader :=
  {| block_number := 0; parent_hash := []; state_root := []; hash := [x00] |}.

Fixpoint canonical_head (db : ListDB) : BlockHeader :=
  match db with
  | [] => genesis
  | x :: db' =>
      let best := canonical_head db' in
      if block_number best <? block_number x then x else best
  end.

#[export] Instance list_headerdb : AsyncHeaderDB ListDB := {|
  coro_get_canonical_head := canonical_head;
  coro_header_exists db h := bool_decide (is_Some (find_header db h));
  coro_get_block_header_by_hash := find_header;
  coro_persist_header db header := header :: db;
|}.

(** Rules that accept a header exactly when it numbers its parent's
    successor. *)
#[export] Instance successor_rules : ChainClass := {|
  VM := unit;
  get_vm_class_for_block_number _ := tt;
  validate_header _ header parent := block_number header =? block_number parent + 1;
|}.

(** Stand-ins for the hashing, trie and RLP primitives: a proof is the pair
    of a key and a value, valid under the root that is their concatenation. *)
#[export] Instance toy_primitives : Primitives := {|
  keccak b := b;
  get_from_proof root key prf :=
    match prf with
    | [k; v] => if decide (k = key ∧ root = k ++ v) then inr v else inl BadTrieProof
    | _ => inl BadTrieProof
    end;
  rlp_decode_account b :=
    match b with
    | [n; m] => inr {| nonce := Z.of_N (Byte.to_N n); balance := Z.of_N (Byte.to_N m);
                       storage_root := []; code_hash := [] |}
    | _ => inl DecodingError
    end;
  request_ids n := Z.of_nat n;
|}.

Definition H (n : Z) (h p : byte) : BlockHeader :=
  {| block_number := n; parent_hash := [p]; state_root := []; hash := [h] |}.

Definition peer1 : LESPeer := {| peer_id := 1; max_headers_fetch := 192 |}.
Definition peer2 : LESPeer := {| peer_id := 2; max_headers_fetch := 192 |}.

(** A pool of two peers; a peer that has announced nothing counts for a
    total difficulty of 0. *)
Definition known_td (infos : gmap nat HeadInfo) (peer : LESPeer) : Z :=
  default 0 (hi_total_difficulty <$> infos !! peer_id peer).

#[export] Instance two_peer_pool : PeerPool := {|
  pool_highest_td_peer infos :=
    if known_td infos peer1 <? known_td infos peer2 then peer2 else peer1;
|}.

Definition no_caches : LookupCaches :=
  {| header_cache := []; body_cache := []; receipts_cache := [];
     account_cache := []; code_cache := [] |}.

Definition world (db : ListDB) (last : gmap nat HeadInfo) (net : list window)
    : state ListDB :=
  {| headerdb := db; head_infos := ∅;
     _announcement_queue := []; _last_processed_announcements := last;
     _pending_replies := ∅; callbacks := []; issued := 0;
     caches := no_caches; network := net |}.

Definition headers_reply (rid : Z) (hs : list BlockHeader) : Msg :=
  {| request_id := Some rid; headers := Some hs; bodies := None; receipts := None;
     proof := None; codes := None |}.

Definition proof_reply (rid : Z) (p : list bytes) : Msg :=
  {| request_id := Some rid; headers := None; bodies := None; receipts := None;
     proof := Some p; codes := None |}.

Definition answers (m : Msg) : window :=
  {| inbound := [InDict peer1 m]; ending := TimedOut |}.

Definition announce (n : Z) (h : byte) (depth : Z) : HeadInfo :=
  {| hi_block_hash := [h]; hi_block_number := n; hi_total_difficulty := n;
     hi_reorg_depth := depth |}.

(** Worlds for the scenarios below. *)

(* only genesis locally; the peer answers the first request with H(1)..H(3) *)
Definition fresh : state ListDB :=
  world [genesis] ∅
    [answers (headers_reply 0 [H 1 x01 x00; H 2 x02 x01; H 3 x03 x02])].

(* genesis and H(1) locally, a peer never heard of, which answers with a
   header of number 7 whose parent is nowhere *)
Definition first_contact : state ListDB :=
  world [H 1 x01 x00; genesis] ∅ [answers (headers_reply 0 [H 7 x07 x55])].

(* the peer's previous announcement was processed at block 7 *)
Definition known_peer : state ListDB :=
  world [H 1 x01 x00; genesis] {[ 1%nat := announce 7 x07 0 ]} [].

(* nobody answers *)
Definition silent : state ListDB := world [genesis] ∅ [].

(* the peer answers the first request with no headers *)
Definition empty_handed : state ListDB :=
  world [genesis] ∅ [answers (headers_reply 0 [])].

(* a request is pending under id 5 *)
Definition waiting : state ListDB :=
  {| headerdb := [genesis]; head_infos := ∅;
     _announcement_queue := []; _last_processed_announcements := ∅;
     _pending_replies := {[ 5 := 0%nat ]}; callbacks := [None]; issued := 1;
     caches := no_caches; network := [] |}.

Definition H10 : BlockHeader :=
  {| block_number := 10; parent_hash := [x09]; state_root := [x0a; x01; x02];
     hash := [x10] |}.

(* the peer answers a proof request and then a header request *)
Definition proving : state ListDB :=
  world [genesis] ∅
    [answers (proof_reply 0 [[x0a]; [x01; x02]]); answers (headers_reply 1 [H10])].

(* H(0)..H(5) locally, the peer's previous announcement was H(5); it
   answers the first request with H(5)..H(7) *)
Definition synced_to_5 : state ListDB :=
  world [H 5 x05 x04; H 4 x04 x03; H 3 x03 x02; H 2 x02 x01; H 1 x01 x00; genesis]
    {[ 1%nat := announce 5 x05 0 ]}
    [answers (headers_reply 0 [H 5 x05 x04; H 6 x06 x05; H 7 x07 x06])].

(* the peer answers a header request with another header *)
Definition lying : state ListDB :=
  world [genesis] ∅ [answers (headers_reply 0 [H 7 x07 x55])].

(* the peer answers a body request with no body *)
Definition bodiless : state ListDB :=
  world [genesis] ∅
    [answers {| request_id := Some 0; headers := None; bodies := Some [];
                receipts := None; proof := None; codes := None |}].

(* the peer answers the first request with H(1) and the second with no
   headers *)
Definition runs_dry : state ListDB :=
  world [genesis] ∅
    [answers (headers_reply 0 [H 1 x01 x00]); answers (headers_reply 1 [])].

End Sample.

(** ** Observations on the calls made *)

Definition is_delivery (rid : Z) (e : event) : bool :=
  match e with
  | EvDeliver rid' _ _ => bool_decide (rid' = rid)
  | _ => false
  end.

(** How many times a reply was handed to the callback registered under [rid]. *)
Definition deliveries (rid : Z) (evs : list event) : nat :=
  length (filter (λ e, is_delivery rid e = true) evs).

(** The request id an inbound message is dispatched on, if any. *)
Definition dispatch_id (x : Inbound) : option Z :=
  match x with
  | InDict _ msg => request_id msg
  | _ => None
  end.

(** What the message loop never touches. *)
Definition same_stores {DB} (st st' : state DB) : Prop :=
  headerdb st' = headerdb st ∧
  _last_processed_announcements st' = _last_processed_announcements st ∧
  caches st' = caches st.

Definition is_delivery_event (e : event) : Prop :=
  match e with EvDeliver _ _ _ => True | _ => False end.

Definition is_send (e : event) : bool :=
  match e with EvSend _ _ => true | _ => false end.

Definition is_sleep (e : event) : bool :=
  match e with EvSleep _ => true | _ => false end.

(** Requests sent and sleeps taken. *)
Definition sends (evs : list event) : nat := length (filter (λ e, is_send e = true) evs).
Definition sleeps (evs : list event) : nat := length (filter (λ e, is_sleep e = true) evs).

(** The batch request of [_fetch_headers_starting_at]. *)
Definition batch_request (peer : LESPeer) (start_block rid : Z) : event :=
  EvSend peer
    (send_get_block_headers (inl start_block) (max_headers_fetch peer) rid (Some false)).

(** What [fetch_headers start_block peer] may do: ask [peer] for a batch
    that starts at [start_block], have replies dispatched, sleep half a
    second. *)
Definition fetch_event (peer : LESPeer) (start_block : Z) (e : event) : Prop :=
  match e with
  | EvSend p r => ∃ rid, EvSend p r = batch_request peer start_block rid
  | EvSleep d => d = (1 # 2)%Q
  | EvDeliver _ _ _ => True
  | _ => False
  end.

(** What [new_tip] is after importing [hs]. *)
Definition tip_after (new_tip : option Z) (hs : list BlockHeader) : option Z :=
  match last hs with
  | Some header => Some (block_number header)
  | None => new_tip
  end.

Section Imported.
Context {DB : Type} `{!AsyncHeaderDB DB} `{!ChainClass}.

(** [imported db hs evs db']: the headers [hs] were taken in the order
    given, each one first accepted by the rules against the header the
    database holds under its [parent_hash] and then persisted. *)
Inductive imported : DB → list BlockHeader → list event → DB → Prop :=
| imported_nil db : imported db [] [] db
| imported_cons db header parent hs evs db' :
    is_genesis header = false →
    coro_get_block_header_by_hash db (parent_hash header) = Some parent →
    validate_header (get_vm_class_for_block_number (block_number header))
      header parent = true →
    imported (coro_persist_header db header) hs evs db' →
    imported db (header :: hs)
      (EvValidate header parent true :: EvPersist header :: evs) db'.

End Imported.

(** ** Further observations *)

(** The announcements among the inbound messages, in arrival order. *)
Definition announcements (xs : list Inbound) : list (LESPeer * HeadInfo) :=
  omap (λ x, match x with
             | InAnnounce peer head_info => Some (peer, head_info)
             | _ => None
             end) xs.

(** The headers handed to [coro_persist_header], in call order. *)
Definition persisted (evs : list event) : list BlockHeader :=
  omap (λ e, match e with EvPersist header => Some header | _ => None end) evs.

(** The requests sent, in call order. *)
Definition requests (evs : list event) : list event :=
  filter (λ e, is_send e = true) evs.

(** [guarded evs]: in [evs] a header is only persisted right after the
    rules accepted it. *)
Inductive guarded : list event → Prop :=
| guarded_nil : guarded []
| guarded_import header parent evs :
    guarded evs →
    guarded (EvValidate header parent true :: EvPersist header :: evs)
| guarded_other e evs :
    (∀ header, e ≠ EvPersist header) → guarded evs → guarded (e :: evs).

(** Every callback registered in [PendingReplies] is a closure that was
    created. *)
Definition pending_wf {DB} (st : state DB) : Prop :=
  ∀ rid cb, _pending_replies st !! rid = Some cb → (cb < length (callbacks st))%nat.

(** The exceptions that can leave [process_announcement]. *)
Definition announcement_error (e : exception) : Prop :=
  match e with
  | OperationCancelled | KeyError | EmptyGetBlockHeadersReply | TooManyTimeouts
  | HeaderNotFound | LESAnnouncementProcessingError _ | ValidationError => True
  | _ => False
  end.

(** What header synchronisation leaves alone. *)
Definition untouched {DB} (st st' : state DB) : Prop :=
  _last_processed_announcements st' = _last_processed_announcements st ∧
  caches st' = caches st.

Section Runs.
Context {DB : Type} `{!AsyncHeaderDB DB} `{!ChainClass} `{!Primitives}.

(** [timeouts_in_a_row peer start k st st' evs]: from [st], [k] batch
    requests for [start] in a row each ended in [TimeoutError], every one
    followed by a sleep of half a second; [st'] is the state after the
    last sleep and [evs] what was done. *)
Inductive timeouts_in_a_row (peer : LESPeer) (start_block : Z)
    : nat → state DB → state DB → list event → Prop :=
| no_timeout st : timeouts_in_a_row peer start_block 0 st st []
| one_more_timeout k st st1 ev1 st2 ev2 :
    _fetch_headers_starting_at peer start_block st = (Raise TimeoutError, st1, ev1) →
    timeouts_in_a_row peer start_block k st1 st2 ev2 →
    timeouts_in_a_row peer start_block (S k) st st2 (ev1 ++ EvSleep (1 # 2) :: ev2).

(** [iterations peer head_info start st start' st' evs]: the fetch loop
    of [process_announcement], entered at [start] in [st], has completed
    some iterations (each one a batch fetched and imported without
    error) and is about to test [start'] in [st']; [evs] is what was
    done. *)
Inductive iterations (peer : LESPeer) (head_info : HeadInfo)
    : Z → state DB → Z → state DB → list event → Prop :=
| no_iteration start st : iterations peer head_info start st start st []
| one_more_iteration start st batch st1 ev1 new_tip st2 ev2 start' st' evs :
    start < hi_block_number head_info →
    fetch_headers start peer st = (Ok batch, st1, ev1) →
    _import_headers_from_peer batch peer st1 = (Ok (Some new_tip), st2, ev2) →
    iterations peer head_info new_tip st2 start' st' evs →
    iterations peer head_info start st start' st' (ev1 ++ ev2 ++ evs).

End Runs.

(** * Properties *)

Section Properties.
Context {DB : Type} `{!AsyncHeaderDB DB} `{!ChainClass} `{!Primitives} {pool : PeerPool}.

Implicit Types (st : state DB) (peer : LESPeer) (rid : Z) (msg : Msg).

(** ** Message dispatch *)

Lemma deliveries_app rid evs1 evs2 :
  deliveries rid (evs1 ++ evs2) = (deliveries rid evs1 + deliveries rid evs2)%nat.
Proof. unfold deliveries. by rewrite filter_app, length_app. Qed.

Lemma run_step_known st peer msg rid cb :
  request_id msg = Some rid →
  _pending_replies st !! rid = Some cb →
  _run_step (InDict peer msg) st =
    (Ok tt, set_callbacks <[cb := Some msg]> (set_pending_replies (delete rid) st),
     [EvDeliver rid cb msg]).
Proof.
  intros Hid Hcb. unfold _run_step. rewrite Hid.
  unfold mbind, M_bind, bind, get. simpl. rewrite Hcb. reflexivity.
Qed.

Lemma run_step_unknown st x :
  (∀ rid, dispatch_id x = Some rid → _pending_replies st !! rid = None) →
  ∃ st', _run_step x st = (Ok tt, st', []) ∧
         _pending_replies st' = _pending_replies st ∧
         callbacks st' = callbacks st ∧
         headerdb st' = headerdb st ∧
         _last_processed_announcements st' = _last_processed_announcements st.
Proof.
  intros Hno. destruct x as [peer hi|peer msg|peer]; simpl.
  - eexists. split; [reflexivity|]. by destruct st.
  - destruct (request_id msg) as [rid|] eqn:Hid.
    + unfold mbind, M_bind, bind, get. simpl.
      rewrite (Hno rid) by (simpl; done). simpl. by exists st.
    + by exists st.
  - by exists st.
Qed.

Lemma run_step_cases st x :
  (∃ peer msg rid cb,
      x = InDict peer msg ∧ request_id msg = Some rid ∧
      _pending_replies st !! rid = Some cb ∧
      _run_step x st =
        (Ok tt, set_callbacks <[cb := Some msg]> (set_pending_replies (delete rid) st),
         [EvDeliver rid cb msg]))
  ∨ (∃ st', _run_step x st = (Ok tt, st', []) ∧
            (∀ rid, dispatch_id x = Some rid → _pending_replies st !! rid = None) ∧
            _pending_replies st' = _pending_replies st ∧
            callbacks st' = callbacks st ∧
            headerdb st' = headerdb st ∧
            _last_processed_announcements st' = _last_processed_announcements st ∧
            caches st' = caches st ∧ network st' = network st ∧
            issued st' = issued st).
Proof.
  destruct x as [peer hi|peer msg|peer].
  - right. eexists. split; [reflexivity|]. by destruct st.
  - destruct (request_id msg) as [rid|] eqn:Hid.
    + destruct (_pending_replies st !! rid) as [cb|] eqn:Hcb.
      * left. exists peer, msg, rid, cb. eauto using run_step_known.
      * right. exists st. simpl. rewrite Hid.
        unfold mbind, M_bind, bind, get. simpl. rewrite Hcb.
        split_and!; try done. intros rid' [= ?]. congruence.
    + right. exists st. simpl. rewrite Hid. split_and!; done.
  - right. exists st. simpl. split_and!; done.
Qed.

Lemma run_inbound_cons x xs st :
  run_inbound (x :: xs) st =
    let '(_, st1, ev1) := _run_step x st in
    let '(r, st2, ev2) := run_inbound xs st1 in (r, st2, ev1 ++ ev2).
Proof.
  simpl. unfold mbind, M_bind, bind.
  destruct (run_step_cases st x) as [(?&?&?&?&_&_&_&->)|(?&->&_)]; reflexivity.
Qed.

Lemma same_stores_refl st : same_stores st st.
Proof. by repeat split. Qed.

Lemma same_stores_trans st1 st2 st3 :
  same_stores st1 st2 → same_stores st2 st3 → same_stores st1 st3.
Proof. unfold same_stores. intros (?&?&?) (?&?&?). split_and!; congruence. Qed.

Lemma run_step_frame st x st' r ev :
  _run_step x st = (r, st', ev) →
  r = Ok tt ∧ same_stores st st' ∧ network st' = network st ∧
  length (callbacks st') = length (callbacks st) ∧ issued st' = issued st.
Proof.
  destruct (run_step_cases st x) as [(?&?&?&?&_&_&_&->)|(?&->&_&_&Hc&?&?&?&?&?)];
    intros [= <- <- <-].
  - split_and!; try done. simpl. by rewrite length_insert.
  - unfold same_stores. rewrite Hc. split_and!; done.
Qed.

Lemma run_inbound_frame xs st st' r ev :
  run_inbound xs st = (r, st', ev) →
  r = Ok tt ∧ same_stores st st' ∧ network st' = network st ∧
  length (callbacks st') = length (callbacks st) ∧ issued st' = issued st.
Proof.
  revert st st' r ev. induction xs as [|x xs IH]; intros st st' r ev.
  - intros [= <- <- <-]. split_and!; done.
  - rewrite run_inbound_cons.
    destruct (_run_step x st) as [[r1 st1] ev1] eqn:H1.
    destruct (run_inbound xs st1) as [[r2 st2] ev2] eqn:H2.
    intros [= <- <- <-].
    apply run_step_frame in H1 as (_&?&?&?&?). apply IH in H2 as (?&?&?&?&?).
    split_and!; eauto using same_stores_trans; congruence.
Qed.

Lemma run_inbound_deliveries xs st rid st' r ev :
  run_inbound xs st = (r, st', ev) →
  (deliveries rid ev ≤ 1)%nat ∧
  (_pending_replies st !! rid = None → deliveries rid ev = 0%nat).
Proof.
  revert st st' r ev. induction xs as [|x xs IH]; intros st st' r ev.
  - intros [= <- <- <-]. split; [by compute; lia | done].
  - rewrite run_inbound_cons.
    destruct (run_step_cases st x)
      as [(peer&msg&rid'&cb&_&_&Hcb&->)|(st1&->&_&Hp&_)];
      destruct (run_inbound xs _) as [[r2 st2] ev2] eqn:H2; intros [= <- <- <-];
      apply (IH _ _ _ _) in H2 as [Hle Hz].
    + unfold deliveries in *. rewrite filter_cons. simpl in *.
      destruct (decide (rid' = rid)) as [->|Hne].
      * rewrite bool_decide_eq_true_2 by done. rewrite decide_True by done. simpl.
        rewrite Hz by apply lookup_delete_eq. split; [lia|congruence].
      * rewrite bool_decide_eq_false_2 by done. rewrite decide_False by done.
        split; [done|]. intros Hn. apply Hz. by rewrite lookup_delete_ne.
    + simpl. rewrite Hp in Hz. done.
Qed.

Lemma run_inbound_fulfilled xs st cb m st' r ev :
  run_inbound xs st = (r, st', ev) →
  callbacks st !! cb = Some (Some m) →
  ∃ m', callbacks st' !! cb = Some (Some m').
Proof.
  revert st st' r ev m. induction xs as [|x xs IH]; intros st st' r ev m.
  - intros [= <- <- <-]. eauto.
  - rewrite run_inbound_cons.
    destruct (run_step_cases st x)
      as [(peer&msg&rid'&cb'&_&_&Hcb&->)|(st1&->&_&_&Hc&_)];
      destruct (run_inbound xs _) as [[r2 st2] ev2] eqn:H2; intros [= <- <- <-] Hm.
    + destruct (decide (cb' = cb)) as [->|Hne].
      * eapply IH; [done|]. simpl. apply list_lookup_insert_eq.
        by eapply lookup_lt_Some.
      * eapply IH; [done|]. simpl. rewrite list_lookup_insert_ne; done.
    + eapply IH; [done|]. by rewrite Hc.
Qed.

Lemma deliveries_cons rid e evs :
  deliveries rid (e :: evs) =
    ((if is_delivery rid e then 1 else 0) + deliveries rid evs)%nat.
Proof.
  unfold deliveries. rewrite filter_cons.
  destruct (is_delivery rid e); [rewrite decide_True by done|rewrite decide_False by done];
    reflexivity.
Qed.

Lemma run_inbound_slot xs st rid cb st' r ev :
  run_inbound xs st = (r, st', ev) →
  _pending_replies st !! rid = Some cb →
  callbacks st !! cb = Some None →
  (_pending_replies st' !! rid = Some cb ∧ callbacks st' !! cb = Some None ∧
   deliveries rid ev = 0%nat)
  ∨ (∃ m, callbacks st' !! cb = Some (Some m)).
Proof.
  revert st st' r ev. induction xs as [|x xs IH]; intros st st' r ev.
  - intros [= <- <- <-]. eauto.
  - rewrite run_inbound_cons.
    destruct (run_step_cases st x)
      as [(peer&msg&rid'&cb'&_&_&Hcb&->)|(st1&->&_&Hp&Hc&_)];
      destruct (run_inbound xs _) as [[r2 st2] ev2] eqn:H2;
      intros [= <- <- <-] Hrid Hnone.
    + destruct (decide (cb' = cb)) as [->|Hne].
      * right. eapply run_inbound_fulfilled; [done|]. simpl.
        apply list_lookup_insert_eq. by eapply lookup_lt_Some.
      * assert (rid' ≠ rid) by congruence.
        simpl. rewrite deliveries_cons. simpl.
        rewrite bool_decide_eq_false_2 by done. simpl.
        eapply IH; [done| |]; simpl.
        -- by rewrite lookup_delete_ne.
        -- by rewrite list_lookup_insert_ne.
    + eapply IH; [done| |]; congruence.
Qed.

(** [_wait_for_reply] laid out: the callback is the next closure, it is
    registered under [rid], the waiter is parked for one window. *)
Lemma wait_for_reply_eq rid st :
  let cb := length (callbacks st) in
  let w := default idle_window (head (network st)) in
  let st0 := set_network tail
               (set_pending_replies <[rid := cb]> (set_callbacks (λ c, c ++ [None]) st)) in
  _wait_for_reply rid st =
    let '(_, st1, ev) := run_inbound (inbound w) st0 in
    (match callbacks st1 !! cb with
     | Some (Some reply) => Ok reply
     | _ => Raise (wake_error w)
     end, st1, ev).
Proof.
  intros cb w st0. unfold _wait_for_reply.
  unfold mbind, M_bind, bind, get, modify, next_window. simpl.
  assert (∀ (s : state DB) xs, ∃ s' ev, run_inbound xs s = (Ok tt, s', ev)) as Hok.
  { intros s xs. destruct (run_inbound xs s) as [[r s'] ev] eqn:E.
    apply run_inbound_frame in E as (->&_). eauto. }
  subst st0 w cb. destruct st as [? ? ? ? ? ? ? ? [|w ws]]; simpl.
  - unfold set_network, set_pending_replies, set_callbacks. simpl.
    destruct ((callbacks0 ++ [None]) !! length callbacks0) as [[?|]|]; reflexivity.
  - unfold set_network, set_pending_replies, set_callbacks. simpl.
    match goal with |- context [run_inbound ?xs ?s] => destruct (Hok s xs) as (s'&ev&->) end.
    simpl. destruct (callbacks s' !! length callbacks0) as [[?|]|]; simpl;
      by rewrite ?app_nil_r.
Qed.

(** C6.  A reply is handed to a registered waiter at most once.  A message
    carrying a registered request id removes the entry and is passed to
    the registered callback; a message whose id is not a key (or that
    carries none) changes neither [PendingReplies] nor any callback and
    is delivered to nobody; over any run of the message loop an id sees
    at most one delivery, and none when it is not registered. *)
Theorem reply_delivered_at_most_once st :
  (∀ peer msg rid cb,
      request_id msg = Some rid → _pending_replies st !! rid = Some cb →
      ∃ st', _run_step (InDict peer msg) st = (Ok tt, st', [EvDeliver rid cb msg]) ∧
             _pending_replies st' = delete rid (_pending_replies st) ∧
             callbacks st' = <[cb := Some msg]> (callbacks st))
  ∧ (∀ x, (∀ rid, dispatch_id x = Some rid → _pending_replies st !! rid = None) →
      ∃ st', _run_step x st = (Ok tt, st', []) ∧
             _pending_replies st' = _pending_replies st ∧
             callbacks st' = callbacks st)
  ∧ (∀ xs rid,
      (deliveries rid (run_inbound xs st).2 ≤ 1)%nat ∧
      (_pending_replies st !! rid = None → deliveries rid (run_inbound xs st).2 = 0%nat)).
Proof.
  split_and!.
  - intros peer msg rid cb Hid Hcb. eexists. split; [by apply run_step_known|done].
  - intros x Hx. destruct (run_step_unknown st x Hx) as (st'&?&?&?&_). eauto.
  - intros xs rid. destruct (run_inbound xs st) as [[r st'] ev] eqn:E.
    by eapply run_inbound_deliveries.
Qed.

(** C2 (as the code has it).  When [_wait_for_reply] fails with a timeout
    the slot keyed by the request id is still in [PendingReplies], bound
    to the callback of the waiter that gave up, which holds no reply; a
    reply that arrives later with that id removes the slot and is passed
    to that callback. *)
Theorem wait_for_reply_timeout_keeps_slot rid st st' ev :
  _wait_for_reply rid st = (Raise TimeoutError, st', ev) →
  let cb := length (callbacks st) in
  _pending_replies st' !! rid = Some cb ∧
  callbacks st' !! cb = Some None ∧
  deliveries rid ev = 0%nat ∧
  ∀ peer msg, request_id msg = Some rid →
    _run_step (InDict peer msg) st' =
      (Ok tt, set_callbacks <[cb := Some msg]> (set_pending_replies (delete rid) st'),
       [EvDeliver rid cb msg]).
Proof.
  intros Hw cb. rewrite wait_for_reply_eq in Hw. fold cb in Hw.
  destruct (run_inbound _ _) as [[r st1] ev1] eqn:E.
  assert (_pending_replies st1 !! rid = Some cb ∧ callbacks st1 !! cb = Some None ∧
          deliveries rid ev1 = 0%nat) as (Hp & Hc & Hd).
  { eapply run_inbound_slot in E as [?|[m Hm]].
    - done.
    - rewrite Hm in Hw. done.
    - simpl. apply lookup_insert_eq.
    - simpl. subst cb. by rewrite lookup_app_r, Nat.sub_diag. }
  rewrite Hc in Hw. injection Hw as _ <- <-.
  split_and!; [done..|].
  intros peer msg Hid. by apply run_step_known.
Qed.

(** ** Waiting for a reply, fetching a batch *)

Lemma run_inbound_events xs st r st' ev :
  run_inbound xs st = (r, st', ev) → Forall is_delivery_event ev.
Proof.
  revert st st' r ev. induction xs as [|x xs IH]; intros st st' r ev.
  - intros [= <- <- <-]. constructor.
  - rewrite run_inbound_cons.
    destruct (run_step_cases st x) as [(?&?&?&?&_&_&_&->)|(?&->&_)];
      destruct (run_inbound xs _) as [[r2 st2] ev2] eqn:H2; intros [= <- <- <-];
      apply IH in H2; simpl; [constructor|]; done.
Qed.

Lemma wait_for_reply_frame rid st r st' ev :
  _wait_for_reply rid st = (r, st', ev) →
  same_stores st st' ∧ issued st' = issued st ∧
  network st' = tail (network st) ∧
  Forall is_delivery_event ev ∧
  (∀ reply, r = Ok reply → network st ≠ []) ∧
  (∀ e, r = Raise e → e = TimeoutError ∨ e = OperationCancelled).
Proof.
  rewrite wait_for_reply_eq.
  destruct (run_inbound _ _) as [[r1 st1] ev1] eqn:E. intros [= <- <- <-].
  pose proof (run_inbound_events _ _ _ _ _ E) as Hev.
  pose proof E as E'.
  apply run_inbound_frame in E as (_&Hs&Hn&_&Hi).
  split_and!; try done.
  - intros reply Hr Hnil. rewrite Hnil in E'. simpl in E'.
    injection E' as _ <- _. simpl in Hr.
    rewrite lookup_app_r, Nat.sub_diag in Hr by done. done.
  - intros e. destruct (callbacks st1 !! _) as [[?|]|]; intros [= <-];
      unfold wake_error; destruct (ending _); auto.
Qed.

Lemma fetch_starting_at_eq peer start st :
  _fetch_headers_starting_at peer start st =
    let rid := request_ids (issued st) in
    let '(r, st1, ev1) := _wait_for_reply rid (set_issued S st) in
    (match r with
     | Ok reply =>
         match headers reply with
         | Some [] => Raise EmptyGetBlockHeadersReply
         | Some hs => Ok hs
         | None => Raise KeyError
         end
     | Raise e => Raise e
     end, st1, batch_request peer start rid :: ev1).
Proof.
  unfold _fetch_headers_starting_at, mbind, M_bind, bind, gen_request_id, emit, getitem.
  simpl. destruct (_wait_for_reply _ _) as [[[reply|e] st1] ev1]; simpl; [|done].
  destruct (headers reply) as [[|h hs]|]; simpl; by rewrite ?app_nil_r.
Qed.

Lemma sends_app evs1 evs2 : sends (evs1 ++ evs2) = (sends evs1 + sends evs2)%nat.
Proof. unfold sends. by rewrite filter_app, length_app. Qed.

Lemma sleeps_app evs1 evs2 : sleeps (evs1 ++ evs2) = (sleeps evs1 + sleeps evs2)%nat.
Proof. unfold sleeps. by rewrite filter_app, length_app. Qed.

Lemma sends_cons e evs :
  sends (e :: evs) = ((if is_send e then 1 else 0) + sends evs)%nat.
Proof.
  unfold sends. rewrite filter_cons.
  destruct (is_send e); [rewrite decide_True by done|rewrite decide_False by done];
    reflexivity.
Qed.

Lemma sleeps_cons e evs :
  sleeps (e :: evs) = ((if is_sleep e then 1 else 0) + sleeps evs)%nat.
Proof.
  unfold sleeps. rewrite filter_cons.
  destruct (is_sleep e); [rewrite decide_True by done|rewrite decide_False by done];
    reflexivity.
Qed.

Lemma deliveries_only_counts evs :
  Forall is_delivery_event evs → sends evs = 0%nat ∧ sleeps evs = 0%nat.
Proof.
  induction 1 as [|e evs He _ [IH1 IH2]]; [done|].
  rewrite sends_cons, sleeps_cons, IH1, IH2. by destruct e.
Qed.

Lemma deliveries_only_fetch peer start evs :
  Forall is_delivery_event evs → Forall (fetch_event peer start) evs.
Proof. intros Hev. eapply Forall_impl; [done|]. by intros []. Qed.

Lemma fetch_starting_at_spec peer start st r st' ev :
  _fetch_headers_starting_at peer start st = (r, st', ev) →
  same_stores st st' ∧ network st' = tail (network st) ∧
  (∃ ev1, ev = batch_request peer start (request_ids (issued st)) :: ev1 ∧
          Forall is_delivery_event ev1) ∧
  r ≠ Raise TooManyTimeouts ∧
  (∀ hs, r = Ok hs → hs ≠ [] ∧ network st ≠ []).
Proof.
  rewrite fetch_starting_at_eq. simpl.
  destruct (_wait_for_reply _ _) as [[r1 st1] ev1] eqn:E. intros [= <- <- <-].
  apply wait_for_reply_frame in E as (Hs & _ & Hn & Hev & Hok & Herr).
  split_and!; eauto.
  - destruct r1 as [reply|e]; [by destruct (headers reply) as [[|]|]|].
    destruct (Herr e eq_refl); by subst.
  - intros hs. destruct r1 as [reply|e]; [|done].
    specialize (Hok _ eq_refl). destruct (headers reply) as [[|]|]; [done| |done].
    intros [= <-]. done.
Qed.

Lemma fetch_attempts_S n start peer st :
  fetch_attempts (S n) start peer st =
    match _fetch_headers_starting_at peer start st with
    | (Raise TimeoutError, st1, ev1) =>
        let '(r, st2, ev2) := fetch_attempts n start peer st1 in
        (r, st2, ev1 ++ EvSleep (1 # 2) :: ev2)
    | other => other
    end.
Proof.
  simpl. unfold try_except.
  destruct (_fetch_headers_starting_at peer start st) as [[[hs|e] st1] ev1]; [done|].
  destruct e; try done. simpl. unfold mbind, M_bind, bind, emit.
  by destruct (fetch_attempts n start peer st1) as [[r2 st2] ev2].
Qed.

Lemma fetch_attempts_spec n start peer st r st' ev :
  fetch_attempts n start peer st = (r, st', ev) →
  same_stores st st' ∧
  Forall (fetch_event peer start) ev ∧
  ((r = Raise TooManyTimeouts ∧ sends ev = n ∧ sleeps ev = n)
   ∨ (r ≠ Raise TooManyTimeouts ∧ sends ev = S (sleeps ev) ∧ (sends ev ≤ n)%nat)) ∧
  (length (network st') ≤ length (network st))%nat ∧
  (∀ hs, r = Ok hs → hs ≠ [] ∧ (length (network st') < length (network st))%nat).
Proof.
  revert st r st' ev. induction n as [|n IH]; intros st r st' ev.
  - intros [= <- <- <-]. split_and!; try done. by left.
  - rewrite fetch_attempts_S.
    destruct (_fetch_headers_starting_at peer start st) as [[r1 st1] ev1] eqn:E.
    apply fetch_starting_at_spec in E as (Hs & Hn & (ev1' & -> & Hev) & Hne & Hok).
    assert (length (network st1) ≤ length (network st))%nat as Hlen.
    { rewrite Hn. destruct (network st); simpl; lia. }
    destruct (deliveries_only_counts _ Hev) as [Hs0 Hz0].
    assert (r1 = Raise TimeoutError ∨ r1 ≠ Raise TimeoutError) as [->|Hnt].
    { destruct r1 as [|[]]; auto. }
    + destruct (fetch_attempts n start peer st1) as [[r2 st2] ev2] eqn:E2.
      intros [= <- <- <-]. apply IH in E2 as (Hs2 & Hev2 & Hcnt & Hlen2 & Hok2).
      split_and!.
      * eauto using same_stores_trans.
      * constructor; [by eexists|]. apply Forall_app. split.
        -- by apply deliveries_only_fetch.
        -- by constructor.
      * rewrite !sends_cons, !sleeps_cons, !sends_app, !sleeps_app,
          !sends_cons, !sleeps_cons, Hs0, Hz0. simpl.
        destruct Hcnt as [(?&?&?)|(?&?&?)]; [left|right]; split_and!; try done; lia.
      * lia.
      * intros hs Hhs. destruct (Hok2 hs Hhs). split; [done|lia].
    + intros Heq.
      assert ((r, st', ev) = (r1, st1, batch_request peer start (request_ids (issued st)) :: ev1'))
        as [= -> -> ->].
      { rewrite <- Heq. destruct r1 as [|[]]; done. }
      split_and!; try done.
      * constructor; [by eexists|]. by apply deliveries_only_fetch.
      * right. rewrite sends_cons, sleeps_cons, Hs0, Hz0. simpl. split_and!; [done..|lia].
      * intros hs Hhs. destruct (Hok hs Hhs) as [? Hnn]. split; [done|].
        rewrite Hn. destruct (network st); [done|simpl; lia].
Qed.

(** ** Persisting and importing headers *)

Lemma persist_headers_eq hs st :
  persist_headers hs st =
    (Ok tt, set_headerdb (λ db, foldl coro_persist_header db hs) st, map EvPersist hs).
Proof.
  revert st. induction hs as [|h hs IH]; intros st.
  - by destruct st.
  - simpl. unfold mbind, M_bind, bind, persist_header, emit, modify. simpl.
    rewrite IH. reflexivity.
Qed.

Lemma validate_header_cases header st :
  (∃ parent,
      is_genesis header = false ∧
      coro_get_block_header_by_hash (headerdb st) (parent_hash header) = Some parent ∧
      validate_header (get_vm_class_for_block_number (block_number header))
        header parent = true ∧
      _validate_header header st = (Ok tt, st, [EvValidate header parent true]))
  ∨ (∃ e ev, _validate_header header st = (Raise e, st, ev)).
Proof.
  unfold _validate_header. destruct (is_genesis header) eqn:Hg.
  { right. by eexists _, _. }
  unfold mbind, M_bind, bind, get, emit. simpl.
  destruct (coro_get_block_header_by_hash _ _) as [parent|] eqn:Hp.
  - simpl. destruct (validate_header _ header parent) eqn:Hv; simpl.
    + left. exists parent. by rewrite Hv.
    + right. by eexists _, _.
  - right. by eexists _, _.
Qed.

Lemma import_from_spec new_tip hs peer st r st' ev :
  import_from new_tip hs peer st = (r, st', ev) →
  (∃ db', st' = set_headerdb (λ _, db') st) ∧
  (∀ tip, r = Ok tip →
     tip = tip_after new_tip hs ∧ imported (headerdb st) hs ev (headerdb st')).
Proof.
  revert new_tip st r st' ev. induction hs as [|h hs IH]; intros new_tip st r st' ev.
  - intros [= <- <- <-]. split.
    + exists (headerdb st). by destruct st.
    + intros ? [= <-]. split; [done|constructor].
  - simpl. unfold mbind, M_bind, bind, try_except.
    destruct (validate_header_cases h st) as [(parent&Hg&Hp&Hv&->)|(e&ev0&->)].
    + unfold persist_header, mbind, M_bind, bind, emit, modify. simpl.
      destruct (import_from _ hs peer _) as [[r1 st1] ev1] eqn:E.
      intros [= <- <- <-]. apply IH in E as [[db' ->] Hok]. split.
      * exists db'. by destruct st.
      * intros tip Htip. destruct (Hok _ Htip) as [-> Himp]. split.
        -- unfold tip_after. rewrite last_cons. by destruct (last hs).
        -- simpl in Himp. by econstructor.
    + destruct (is_ValidationError e); simpl; intros [= <- <- <-];
        (split; [exists (headerdb st); by destruct st|done]).
Qed.

(** ** Fetching with retries *)

Lemma fetch_headers_spec start peer st r st' ev :
  fetch_headers start peer st = (r, st', ev) →
  same_stores st st' ∧
  Forall (fetch_event peer start) ev ∧
  (sends ev ≤ max_consecutive_timeouts)%nat ∧
  (r = Raise TooManyTimeouts ↔ sleeps ev = max_consecutive_timeouts) ∧
  (r = Raise TooManyTimeouts → sends ev = max_consecutive_timeouts) ∧
  (length (network st') ≤ length (network st))%nat ∧
  (∀ hs, r = Ok hs →
     hs ≠ [] ∧ (0 < sends ev)%nat ∧ (length (network st') < length (network st))%nat).
Proof.
  unfold fetch_headers. destruct (start =? GENESIS_BLOCK_NUMBER).
  { intros [= <- <- <-]. split_and!; try done; try (compute; lia). }
  intros E. apply fetch_attempts_spec in E as (Hs & Hev & Hcnt & Hlen & Hok).
  split_and!; try done.
  - destruct Hcnt as [(?&?&?)|(?&?&?)]; lia.
  - destruct Hcnt as [(?&?&?)|(?&?&?)]; split; try done; lia.
  - destruct Hcnt as [(?&?&?)|(?&?&?)]; done.
  - intros hs ->. destruct (Hok hs eq_refl). split_and!; try done.
    destruct Hcnt as [(?&?&?)|(?&?&?)]; [done|lia].
Qed.

(** ** The fetch loop *)

Lemma sync_loop_unfold fuel peer hi start st :
  sync_loop fuel peer hi start st =
    if start <? hi_block_number hi then
      match fuel with
      | O => None
      | S fuel' =>
          match fetch_headers start peer st with
          | (Raise e, st1, ev1) => Some (Raise e, st1, ev1)
          | (Ok batch, st1, ev1) =>
              match _import_headers_from_peer batch peer st1 with
              | (Raise e, st2, ev2) => Some (Raise e, st2, ev1 ++ ev2)
              | (Ok None, st2, ev2) => Some (Raise TypeError, st2, ev1 ++ ev2)
              | (Ok (Some new_tip), st2, ev2) =>
                  match sync_loop fuel' peer hi new_tip st2 with
                  | Some (r, st3, ev3) => Some (r, st3, ev1 ++ ev2 ++ ev3)
                  | None => None
                  end
              end
          end
      end
    else Some (Ok tt, st, []).
Proof. destruct fuel; reflexivity. Qed.

(** One more unit of fuel than there are windows left is enough, and more
    fuel changes nothing. *)
Lemma sync_loop_enough fuel peer hi start st :
  (length (network st) < fuel)%nat →
  ∃ o, ∀ fuel', (length (network st) < fuel')%nat →
         sync_loop fuel' peer hi start st = Some o.
Proof.
  revert start st. induction fuel as [|fuel IH]; intros start st Hlt; [lia|].
  destruct (start <? hi_block_number hi) eqn:Hc.
  2:{ exists (Ok tt, st, []). intros fuel' _. by rewrite sync_loop_unfold, Hc. }
  destruct (fetch_headers start peer st) as [[[batch|e] st1] ev1] eqn:Ef.
  2:{ exists (Raise e, st1, ev1). intros [|fuel'] ?; [lia|].
      by rewrite sync_loop_unfold, Hc, Ef. }
  destruct (fetch_headers_spec _ _ _ _ _ _ Ef) as (_&_&_&_&_&_&Hok).
  destruct (Hok batch eq_refl) as (_&_&Hnet).
  destruct (_import_headers_from_peer batch peer st1) as [[[[tip|]|e] st2] ev2] eqn:Ei.
  - destruct (import_from_spec _ _ _ _ _ _ _ Ei) as [[db' ->] _].
    destruct (IH tip (set_headerdb (λ _, db') st1)) as [[[r st3] ev3] Ho].
    { simpl. lia. }
    exists (r, st3, ev1 ++ ev2 ++ ev3). intros [|fuel'] ?; [lia|].
    rewrite sync_loop_unfold, Hc, Ef, Ei, Ho; [done|]. simpl. lia.
  - exists (Raise TypeError, st2, ev1 ++ ev2). intros [|fuel'] ?; [lia|].
    by rewrite sync_loop_unfold, Hc, Ef, Ei.
  - exists (Raise e, st2, ev1 ++ ev2). intros [|fuel'] ?; [lia|].
    by rewrite sync_loop_unfold, Hc, Ef, Ei.
Qed.

Lemma get_sync_start_block_frame peer hi st r st' ev :
  get_sync_start_block peer hi st = (r, st', ev) →
  (length (network st') ≤ length (network st))%nat.
Proof.
  unfold get_sync_start_block, mbind, M_bind, bind, get. simpl.
  destruct (block_number _ =? _); [by intros [= <- <- <-]|].
  destruct (_ !! peer_id peer); [by intros [= <- <- <-]|].
  unfold try_except. simpl.
  destruct (fetch_headers _ peer st) as [[[hs|e] st1] ev1] eqn:Ef;
    destruct (fetch_headers_spec _ _ _ _ _ _ Ef) as (_&_&_&_&_&Hlen&_).
  - rewrite persist_headers_eq. simpl. by intros [= <- <- <-].
  - destruct (is_EmptyGetBlockHeadersReply e); simpl; by intros [= <- <- <-].
Qed.

(** The announcement handler always comes back with a result. *)
Lemma process_announcement_total peer hi st :
  ∃ o, process_announcement peer hi st = Some o.
Proof.
  unfold process_announcement. destruct (coro_header_exists _ _); [eauto|].
  destruct (get_sync_start_block peer hi st) as [[[start|e] st1] ev1]; [|eauto].
  destruct (sync_loop_enough (S (length (network st1))) peer hi start st1)
    as [[[r st2] ev2] Ho]; [lia|].
  rewrite Ho by lia. eauto.
Qed.

Lemma process_announcements_total peer hi st :
  ∃ o, _process_announcements peer hi st = Some o.
Proof.
  unfold _process_announcements.
  destruct (process_announcement_total peer hi st) as [[[[|e] st1] ev1] ->]; [eauto|].
  destruct e; eauto.
Qed.

(** ** The claims on synchronisation *)

(** C3.  [get_sync_start_block] returns 1 when the canonical head is the
    genesis header.  Otherwise, for a peer without an entry in
    [LastProcessedAnnouncements], it fetches from
    [max(1, chain_head.block_number - peer.max_headers_fetch + 1)]: the
    headers returned are all persisted, in order, and the result is
    [max(chain_head.block_number, 1)]; an empty reply to that fetch becomes
    [LESAnnouncementProcessingError] (no common ancestors), any other
    failure of the fetch is passed on.  Otherwise the result is
    [max(last_processed[peer].block_number - head_info.reorg_depth, 1)]. *)
Theorem get_sync_start_block_spec peer head_info st :
  let chain_head := coro_get_canonical_head (headerdb st) in
  (block_number chain_head = 0 →
     get_sync_start_block peer head_info st = (Ok 1, st, []))
  ∧ (block_number chain_head ≠ 0 →
     _last_processed_announcements st !! peer_id peer = None →
     let oldest := Z.max 1 (block_number chain_head - max_headers_fetch peer + 1) in
     match fetch_headers oldest peer st with
     | (Ok hs, st1, ev1) =>
         get_sync_start_block peer head_info st =
           (Ok (Z.max (block_number chain_head) 1),
            set_headerdb (λ db, foldl coro_persist_header db hs) st1,
            ev1 ++ map EvPersist hs)
     | (Raise EmptyGetBlockHeadersReply, st1, ev1) =>
         get_sync_start_block peer head_info st =
           (Raise (LESAnnouncementProcessingError (NoCommonAncestors peer)), st1, ev1)
     | (Raise e, st1, ev1) =>
         get_sync_start_block peer head_info st = (Raise e, st1, ev1)
     end)
  ∧ (block_number chain_head ≠ 0 →
     ∀ last, _last_processed_announcements st !! peer_id peer = Some last →
     get_sync_start_block peer head_info st =
       (Ok (Z.max (hi_block_number last - hi_reorg_depth head_info) 1), st, [])).
Proof.
  intros chain_head. split_and!.
  - intros Hz. unfold get_sync_start_block, mbind, M_bind, bind, get. simpl.
    fold chain_head. by rewrite Hz.
  - intros Hne Hnone oldest.
    unfold get_sync_start_block, mbind, M_bind, bind, get, try_except. simpl.
    fold chain_head. unfold GENESIS_BLOCK_NUMBER.
    rewrite (proj2 (Z.eqb_neq _ _) Hne), Hnone. simpl.
    change (0 + 1) with 1. fold oldest.
    destruct (fetch_headers oldest peer st) as [[[hs|e] st1] ev1].
    + rewrite persist_headers_eq. simpl. by rewrite !app_nil_r.
    + destruct e; simpl; by rewrite ?app_nil_r.
  - intros Hne last Hlast.
    unfold get_sync_start_block, mbind, M_bind, bind, get. simpl.
    fold chain_head. unfold GENESIS_BLOCK_NUMBER.
    rewrite (proj2 (Z.eqb_neq _ _) Hne), Hlast. reflexivity.
Qed.


(** C9.  When the announced head is already in the header database,
    [process_announcement] returns at once: nothing is sent and the
    state (header database, [PendingReplies],
    [LastProcessedAnnouncements] and the rest) is as before; the
    processor then records the announcement as the peer's last processed
    one. *)
Theorem process_announcement_skip_if_known peer head_info st :
  coro_header_exists (headerdb st) (hi_block_hash head_info) = true →
  process_announcement peer head_info st = Some (Ok tt, st, []) ∧
  _process_announcements peer head_info st =
    Some (Ok Continue,
          set_last_processed_announcements <[peer_id peer := head_info]> st, []).
Proof.
  intros Hex. unfold _process_announcements, process_announcement. by rewrite Hex.
Qed.

(** ** Lookups and their caches *)

Lemma alru_cache_miss {K V} `{EqDecision K} maxsize
    (load : LookupCaches → list (K * V)) store (fn : K → M V) k st :
  cache_get k (load (caches st)) = None →
  alru_cache maxsize load store fn k st =
    match fn k st with
    | (Ok v, st1, ev) =>
        (Ok v,
         set_caches (λ c, store (take maxsize ((k, v) :: cache_remove k (load c))) c) st1,
         ev)
    | (Raise e, st1, ev) => (Raise e, st1, ev)
    end.
Proof.
  intros Hmiss. unfold alru_cache, mbind, M_bind, bind, get, modify. simpl.
  rewrite Hmiss. destruct (fn k st) as [[[v|e] st1] ev]; simpl; by rewrite ?app_nil_r.
Qed.

Lemma alru_cache_raise {K V} `{EqDecision K} maxsize
    (load : LookupCaches → list (K * V)) store (fn : K → M V) k st e st' ev :
  (∀ r st1 ev1, fn k st = (r, st1, ev1) → caches st1 = caches st) →
  alru_cache maxsize load store fn k st = (Raise e, st', ev) →
  caches st' = caches st.
Proof.
  intros Hfn. unfold alru_cache, mbind, M_bind, bind, get, modify. simpl.
  destruct (cache_get k _); simpl; [done|].
  destruct (fn k st) as [[[v|e'] st1] ev1] eqn:E; simpl; [done|].
  intros [= <- <- <-]. eauto.
Qed.

Lemma get_block_header_by_hash_eq peer block_hash st :
  _get_block_header_by_hash peer block_hash st =
    let rid := request_ids (issued st) in
    let '(r, st1, ev1) := _wait_for_reply rid (set_issued S st) in
    (match r with
     | Ok reply =>
         match headers reply with
         | None => Raise KeyError
         | Some [] => Raise HeaderNotFound
         | Some (header :: _) =>
             if decide (hash header = block_hash) then Ok header else Raise BadLESResponse
         end
     | Raise e => Raise e
     end, st1, EvSend peer (send_get_block_headers (inr block_hash) 1 rid None) :: ev1).
Proof.
  unfold _get_block_header_by_hash, mbind, M_bind, bind, gen_request_id, emit, getitem.
  simpl. destruct (_wait_for_reply _ _) as [[[reply|e] st1] ev1]; simpl; [|done].
  destruct (headers reply) as [[|h hs]|]; simpl; rewrite ?app_nil_r; try done.
  destruct (decide (hash h = block_hash)); simpl; by rewrite ?app_nil_r.
Qed.

Lemma get_block_header_by_hash_frame peer block_hash st r st' ev :
  _get_block_header_by_hash peer block_hash st = (r, st', ev) →
  same_stores st st' ∧ (∀ header, r = Ok header → hash header = block_hash).
Proof.
  rewrite get_block_header_by_hash_eq. simpl.
  destruct (_wait_for_reply _ _) as [[r1 st1] ev1] eqn:E. intros [= <- <- <-].
  apply wait_for_reply_frame in E as (Hs&_). split; [done|].
  intros header. destruct r1 as [reply|]; [|done].
  destruct (headers reply) as [[|h hs]|]; try done.
  destruct (decide (hash h = block_hash)); [|done]. by intros [= <-].
Qed.

Lemma get_proof_frame peer block_hash account_key key from_level st r st' ev :
  _get_proof peer block_hash account_key key from_level st = (r, st', ev) →
  same_stores st st'.
Proof.
  unfold _get_proof, mbind, M_bind, bind, gen_request_id, emit, getitem. simpl.
  destruct (_wait_for_reply _ _) as [[[reply|e] st1] ev1] eqn:E;
    apply wait_for_reply_frame in E as (Hs&_); simpl.
  - destruct (proof reply); simpl; by intros [= <- <- <-].
  - by intros [= <- <- <-].
Qed.

Lemma get_account_uncached_frame block_hash address st r st' ev :
  get_account_uncached block_hash address st = (r, st', ev) → same_stores st st'.
Proof.
  unfold get_account_uncached, mbind, M_bind, bind, get. simpl.
  destruct (_get_proof _ _ _ _ _ st) as [[[prf|e] st1] ev1] eqn:E1;
    apply get_proof_frame in E1; [|by intros [= <- <- <-]].
  destruct (_get_block_header_by_hash _ _ st1) as [[[header|e] st2] ev2] eqn:E2;
    apply get_block_header_by_hash_frame in E2 as [E2 _];
    [|intros [= <- <- <-]; eauto using same_stores_trans].
  unfold call. destruct (get_from_proof _ _ _) as [e|rlp_account]; simpl.
  - intros [= <- <- <-]; eauto using same_stores_trans.
  - destruct (rlp_decode_account _); simpl; intros [= <- <- <-];
      eauto using same_stores_trans.
Qed.

(** A failed lookup leaves every cache as it was. *)
Lemma lookups_never_cache_failures st e st' ev :
  (∀ block_hash,
     get_block_header_by_hash block_hash st = (Raise e, st', ev) → caches st' = caches st)
  ∧ (∀ block_hash,
     get_block_body_by_hash block_hash st = (Raise e, st', ev) → caches st' = caches st)
  ∧ (∀ block_hash,
     get_receipts block_hash st = (Raise e, st', ev) → caches st' = caches st)
  ∧ (∀ block_hash address,
     get_account block_hash address st = (Raise e, st', ev) → caches st' = caches st)
  ∧ (∀ block_hash key,
     get_contract_code block_hash key st = (Raise e, st', ev) → caches st' = caches st).
Proof.
  split_and!; intros *; apply alru_cache_raise; intros r st1 ev1.
  - unfold mbind, M_bind, bind, get. simpl.
    destruct (_get_block_header_by_hash _ _ st) as [[r2 st2] ev2] eqn:E.
    apply get_block_header_by_hash_frame in E as [(_&_&?) _].
    by intros [= <- <- <-].
  - unfold mbind, M_bind, bind, get, gen_request_id, emit, getitem. simpl.
    destruct (_wait_for_reply _ _) as [[[reply|e'] st2] ev2] eqn:E;
      apply wait_for_reply_frame in E as ((_&_&?)&_); simpl.
    + destruct (bodies reply) as [[|]|]; simpl; by intros [= <- <- <-].
    + by intros [= <- <- <-].
  - unfold mbind, M_bind, bind, get, gen_request_id, emit, getitem. simpl.
    destruct (_wait_for_reply _ _) as [[[reply|e'] st2] ev2] eqn:E;
      apply wait_for_reply_frame in E as ((_&_&?)&_); simpl.
    + destruct (receipts reply) as [[|]|]; simpl; by intros [= <- <- <-].
    + by intros [= <- <- <-].
  - simpl. intros E. by apply get_account_uncached_frame in E as (_&_&?).
  - unfold mbind, M_bind, bind, get, gen_request_id, emit, getitem. simpl.
    destruct (_wait_for_reply _ _) as [[[reply|e'] st2] ev2] eqn:E;
      apply wait_for_reply_frame in E as ((_&_&?)&_); simpl.
    + destruct (codes reply) as [[|]|]; simpl; by intros [= <- <- <-].
    + by intros [= <- <- <-].
Qed.

Lemma cache_get_stored {K V} `{EqDecision K} n (k : K) (v : V) c :
  cache_get k (take (S n) ((k, v) :: c)) = Some v.
Proof. simpl. by rewrite decide_True. Qed.

(** C5.  On a cache miss [get_block_header_by_hash] asks the peer of
    highest total difficulty for the header.  An empty [headers] reply
    raises [HeaderNotFound]; a first header whose hash is not the
    requested one raises [BadLESResponse] and the cache still has no
    entry for the hash; otherwise that header is returned (and
    memoized).  A lookup that raises, whichever of the five, leaves all
    lookup caches as they were. *)
Theorem get_block_header_by_hash_spec block_hash st :
  (cache_get block_hash (header_cache (caches st)) = None →
   ∀ reply st1 ev1 hs,
     _wait_for_reply (request_ids (issued st)) (set_issued S st) = (Ok reply, st1, ev1) →
     headers reply = Some hs →
     let sent :=
       EvSend (highest_td_peer st)
         (send_get_block_headers (inr block_hash) 1 (request_ids (issued st)) None) in
     match hs with
     | [] =>
         get_block_header_by_hash block_hash st = (Raise HeaderNotFound, st1, sent :: ev1)
     | header :: _ =>
         if decide (hash header = block_hash) then
           ∃ st2,
             get_block_header_by_hash block_hash st = (Ok header, st2, sent :: ev1) ∧
             cache_get block_hash (header_cache (caches st2)) = Some header
         else
           get_block_header_by_hash block_hash st = (Raise BadLESResponse, st1, sent :: ev1) ∧
           cache_get block_hash (header_cache (caches st1)) = None
     end)
  ∧ (∀ e st' ev,
      (get_block_header_by_hash block_hash st = (Raise e, st', ev) →
       caches st' = caches st)
      ∧ (get_block_body_by_hash block_hash st = (Raise e, st', ev) →
         caches st' = caches st)
      ∧ (get_receipts block_hash st = (Raise e, st', ev) → caches st' = caches st)
      ∧ (∀ address, get_account block_hash address st = (Raise e, st', ev) →
           caches st' = caches st)
      ∧ (∀ key, get_contract_code block_hash key st = (Raise e, st', ev) →
           caches st' = caches st)).
Proof.
  split.
  - intros Hmiss reply st1 ev1 hs Hw Hh sent.
    pose proof (wait_for_reply_frame _ _ _ _ _ Hw) as ((_&_&Hc)&_).
    unfold get_block_header_by_hash. rewrite alru_cache_miss by done.
    unfold mbind, M_bind, bind, get. simpl.
    rewrite get_block_header_by_hash_eq. simpl. rewrite Hw, Hh.
    destruct hs as [|header hs]; [done|].
    destruct (decide (hash header = block_hash)); simpl.
    + eexists. split; [reflexivity|]. simpl. by rewrite decide_True.
    + split; [done|]. by rewrite Hc.
  - intros e st' ev.
    destruct (lookups_never_cache_failures st e st' ev) as (?&?&?&?&?).
    split_and!; eauto.
Qed.

(** C8.  On a cache miss [get_account] asks the peer of highest total
    difficulty for a proof of [keccak(address)] and for the header of
    [block_hash], and checks the proof against the state root of that
    header.  When the check yields the encoding of an account, that
    account is returned (and memoized); when the check fails, or the
    value does not decode, the call raises. *)
Theorem get_account_spec block_hash address st :
  cache_get (block_hash, address) (account_cache (caches st)) = None →
  let peer := highest_td_peer st in
  let key := keccak address in
  ∀ prf st1 ev1 header st2 ev2,
    _get_proof peer block_hash [] key 0 st = (Ok prf, st1, ev1) →
    _get_block_header_by_hash peer block_hash st1 = (Ok header, st2, ev2) →
    hash header = block_hash ∧
    (∀ rlp_account account,
        get_from_proof (state_root header) key prf = inr rlp_account →
        rlp_decode_account rlp_account = inr account →
        ∃ st3,
          get_account block_hash address st = (Ok account, st3, ev1 ++ ev2) ∧
          cache_get (block_hash, address) (account_cache (caches st3)) = Some account)
    ∧ (∀ e, get_from_proof (state_root header) key prf = inl e →
        get_account block_hash address st = (Raise e, st2, ev1 ++ ev2))
    ∧ (∀ rlp_account e,
        get_from_proof (state_root header) key prf = inr rlp_account →
        rlp_decode_account rlp_account = inl e →
        get_account block_hash address st = (Raise e, st2, ev1 ++ ev2)).
Proof.
  intros Hmiss peer key prf st1 ev1 header st2 ev2 Hp Hh.
  pose proof (get_block_header_by_hash_frame _ _ _ _ _ _ Hh) as [_ Hhash].
  split; [by apply Hhash|].
  unfold get_account. rewrite alru_cache_miss by done. simpl.
  unfold get_account_uncached, mbind, M_bind, bind, get. simpl.
  fold peer key. rewrite Hp, Hh. unfold call. split_and!.
  - intros rlp_account account Hg Hd. rewrite Hg. simpl. rewrite Hd. simpl.
    eexists. split.
    + by rewrite !app_nil_r.
    + simpl. by rewrite decide_True.
  - intros e ->. simpl. by rewrite !app_nil_r.
  - intros rlp_account e Hg Hd. rewrite Hg. simpl. rewrite Hd. simpl.
    by rewrite !app_nil_r.
Qed.

End Properties.

(** * The service on explicit inputs *)

Import Sample.

(** Fresh sync from genesis: one batch, three headers, imported in order. *)
Example fresh_sync :
  ∃ st' ev,
    _process_announcements peer1 (announce 3 x03 0) fresh = Some (Ok Continue, st', ev) ∧
    headerdb st' = [H 3 x03 x02; H 2 x02 x01; H 1 x01 x00; genesis] ∧
    _last_processed_announcements st' !! 1%nat = Some (announce 3 x03 0) ∧
    sends ev = 1%nat.
Proof. eexists _, _. split; [vm_compute; reflexivity|]. by vm_compute. Qed.

(** Incremental sync: the batch is asked from the last synced block, 5. *)
Example incremental_sync :
  ∃ st' ev,
    _process_announcements peer1 (announce 7 x07 0) synced_to_5 =
      Some (Ok Continue, st', ev) ∧
    head ev = Some (batch_request peer1 5 0) ∧
    coro_get_canonical_head (headerdb st') = H 7 x07 x06 ∧
    _last_processed_announcements st' !! 1%nat = Some (announce 7 x07 0).
Proof. eexists _, _. split; [vm_compute; reflexivity|]. by vm_compute. Qed.

(** Nobody answers: five requests, five sleeps, the peer is disconnected. *)
Example silent_peer_is_disconnected :
  ∃ st' ev,
    _process_announcements peer1 (announce 3 x03 0) silent = Some (Ok Continue, st', ev) ∧
    sends ev = 5%nat ∧ sleeps ev = 5%nat ∧
    drop 10 ev = [EvDisconnect peer1 timeout; EvCancel peer1].
Proof. eexists _, _. split; [vm_compute; reflexivity|]. by vm_compute. Qed.

(** C1.  Run on [first_contact]: the peer is unknown and the canonical
    head is not genesis, so [get_sync_start_block] fetches from block 1
    and persists what the peer returns.  The header returned has number
    7; no header of the database has its parent hash, and nothing was
    validated before it was persisted. *)
Theorem first_contact_persists_unvalidated :
  let header := H 7 x07 x55 in
  get_sync_start_block peer1 (announce 9 x09 0) first_contact =
    (Ok 1,
     set_headerdb (λ db, header :: db)
       (set_callbacks (λ _, [Some (headers_reply 0 [header])])
          (set_issued S (set_network (λ _, []) first_contact))),
     [batch_request peer1 1 0; EvDeliver 0 0 (headers_reply 0 [header]);
      EvPersist header])
  ∧ 0 < block_number header
  ∧ coro_get_block_header_by_hash (headerdb first_contact) (parent_hash header) = None.
Proof. split_and!; [vm_compute; reflexivity|done|reflexivity]. Qed.

(** C2, as stated, fails on [silent]: the wait for request 5 times out,
    the slot is still registered, and a reply that comes later is handed
    to the callback of the waiter that gave up. *)
Lemma wait_timeout_removes_slot_counterexample :
  let '(r, st', _) := _wait_for_reply 5 silent in
  r = Raise TimeoutError ∧
  _pending_replies st' !! 5 = Some 0%nat ∧
  (_run_step (InDict peer1 (headers_reply 5 [])) st').2 =
    [EvDeliver 5 0 (headers_reply 5 [])].
Proof. vm_compute. done. Qed.

Lemma wait_for_reply_timeout_keeps_slot_witness :
  (_wait_for_reply 5 silent).1.1 = Raise TimeoutError ∧
  _pending_replies (_wait_for_reply 5 silent).1.2 !! 5 = Some 0%nat.
Proof.
  split; [reflexivity|].
  exact (proj1 (wait_for_reply_timeout_keeps_slot 5 silent
                  (_wait_for_reply 5 silent).1.2 (_wait_for_reply 5 silent).2 eq_refl)).
Defined.

Lemma get_sync_start_block_spec_witness :
  block_number (coro_get_canonical_head (headerdb known_peer)) ≠ 0 ∧
  _last_processed_announcements known_peer !! 1%nat = Some (announce 7 x07 0) ∧
  get_sync_start_block peer1 (announce 8 x08 3) known_peer = (Ok 4, known_peer, []).
Proof.
  assert (block_number (coro_get_canonical_head (headerdb known_peer)) ≠ 0) as Hhead
    by (vm_compute; discriminate).
  split; [exact Hhead|]. split; [reflexivity|].
  exact (proj2 (proj2 (get_sync_start_block_spec peer1 (announce 8 x08 3) known_peer))
           Hhead (announce 7 x07 0) eq_refl).
Defined.


Lemma get_block_header_by_hash_spec_witness :
  let w := _wait_for_reply 0 (set_issued S lying) in
  let sent := EvSend peer1 (send_get_block_headers (inr [x08]) 1 0 None) in
  cache_get [x08] (header_cache (caches lying)) = None ∧
  w.1.1 = Ok (headers_reply 0 [H 7 x07 x55]) ∧
  get_block_header_by_hash [x08] lying = (Raise BadLESResponse, w.1.2, sent :: w.2) ∧
  cache_get [x08] (header_cache (caches w.1.2)) = None.
Proof.
  intros w sent. split; [reflexivity|]. split; [reflexivity|].
  exact (proj1 (get_block_header_by_hash_spec [x08] lying) eq_refl
           (headers_reply 0 [H 7 x07 x55]) w.1.2 w.2 [H 7 x07 x55] eq_refl eq_refl).
Defined.

Lemma reply_delivered_at_most_once_witness :
  request_id (headers_reply 5 []) = Some 5 ∧
  _pending_replies waiting !! 5 = Some 0%nat ∧
  ∃ st', _run_step (InDict peer1 (headers_reply 5 [])) waiting =
           (Ok tt, st', [EvDeliver 5 0 (headers_reply 5 [])]) ∧
         _pending_replies st' = delete 5 (_pending_replies waiting) ∧
         callbacks st' = <[0%nat := Some (headers_reply 5 [])]> (callbacks waiting).
Proof.
  split; [reflexivity|]. split; [reflexivity|].
  exact (proj1 (reply_delivered_at_most_once waiting) peer1 (headers_reply 5 []) 5 0%nat
           eq_refl eq_refl).
Defined.

Lemma get_account_spec_witness :
  cache_get ([x10], [x0a]) (account_cache (caches proving)) = None ∧
  ∃ st3 ev,
    get_account [x10] [x0a] proving =
      (Ok {| nonce := 1; balance := 2; storage_root := []; code_hash := [] |}, st3, ev).
Proof.
  split; [reflexivity|].
  destruct (_get_proof (highest_td_peer proving) [x10] [] (keccak [x0a]) 0 proving)
    as [[r1 st1] ev1] eqn:E1.
  assert (r1 = Ok [[x0a]; [x01; x02]]) as ->
    by (by vm_compute in E1; injection E1 as <- _ _).
  destruct (_get_block_header_by_hash (highest_td_peer proving) [x10] st1)
    as [[r2 st2] ev2] eqn:E2.
  assert (r2 = Ok H10) as ->.
  { vm_compute in E1. injection E1 as <- _. vm_compute in E2. by injection E2 as <- _ _. }
  destruct (proj1 (proj2 (get_account_spec [x10] [x0a] proving eq_refl
                            _ _ _ _ _ _ E1 E2))
              [x01; x02] {| nonce := 1; balance := 2; storage_root := []; code_hash := [] |}
              eq_refl eq_refl) as (st3 & Hst3 & _).
  eauto.
Defined.

Lemma process_announcement_skip_if_known_witness :
  coro_header_exists (headerdb known_peer) (hi_block_hash (announce 1 x01 0)) = true ∧
  process_announcement peer1 (announce 1 x01 0) known_peer = Some (Ok tt, known_peer, []).
Proof.
  split; [reflexivity|].
  exact (proj1 (process_announcement_skip_if_known peer1 (announce 1 x01 0) known_peer
                  eq_refl)).
Defined.


(** * Further properties of the service *)

Section Further.
Context {DB : Type} `{!AsyncHeaderDB DB} `{!ChainClass} `{!Primitives} {pool : PeerPool}.

Implicit Types (st : state DB) (peer : LESPeer) (rid : Z) (msg : Msg).

(** ** The message loop *)

Lemma run_step_queue x st r st' ev :
  _run_step x st = (r, st', ev) →
  _announcement_queue st' = _announcement_queue st ++ announcements [x] ∧
  head_infos st' =
    foldl (λ m a, <[peer_id a.1 := a.2]> m) (head_infos st) (announcements [x]).
Proof.
  destruct x as [peer hi|peer msg|peer]; simpl.
  - intros [= <- <- <-]. done.
  - destruct (request_id msg) as [rid|]; [|intros [= <- <- <-]; by rewrite app_nil_r].
    unfold mbind, M_bind, bind, get. simpl.
    destruct (_pending_replies st !! rid); simpl; intros [= <- <- <-]; simpl;
      by rewrite app_nil_r.
  - intros [= <- <- <-]. by rewrite app_nil_r.
Qed.

(** X1.  The message loop queues announcements in arrival order behind
    what is already queued, and records for each peer the head it
    announced last. *)
Theorem run_inbound_announcements_fifo xs st :
  let st' := (run_inbound xs st).1.2 in
  _announcement_queue st' = _announcement_queue st ++ announcements xs ∧
  head_infos st' =
    foldl (λ m a, <[peer_id a.1 := a.2]> m) (head_infos st) (announcements xs).
Proof.
  revert st. induction xs as [|x xs IH]; intros st.
  - simpl. by rewrite app_nil_r.
  - assert (announcements (x :: xs) = announcements [x] ++ announcements xs) as ->.
    { unfold announcements. by rewrite <- omap_app. }
    rewrite run_inbound_cons.
    destruct (_run_step x st) as [[r1 st1] ev1] eqn:E1.
    destruct (run_step_queue _ _ _ _ _ E1) as [Hq Hh].
    specialize (IH st1). destruct (run_inbound xs st1) as [[r2 st2] ev2].
    cbn [fst snd] in IH |- *.
    destruct IH as [-> ->]. by rewrite Hq, Hh, foldl_app, app_assoc.
Qed.

Lemma run_inbound_shrinks xs st r st' ev rid cb :
  run_inbound xs st = (r, st', ev) →
  _pending_replies st' !! rid = Some cb → _pending_replies st !! rid = Some cb.
Proof.
  revert st st' r ev. induction xs as [|x xs IH]; intros st st' r ev.
  - by intros [= <- <- <-].
  - rewrite run_inbound_cons.
    destruct (run_step_cases st x)
      as [(peer&msg&rid'&cb'&_&_&Hcb&->)|(st1&->&_&Hp&_)];
      destruct (run_inbound xs _) as [[r2 st2] ev2] eqn:H2; intros [= <- <- <-] Hl;
      eapply IH in H2; try done.
    + simpl in H2. apply lookup_delete_Some in H2 as [_ ?]. done.
    + by rewrite <- Hp.
Qed.

Lemma run_inbound_wf xs st r st' ev :
  run_inbound xs st = (r, st', ev) → pending_wf st → pending_wf st'.
Proof.
  intros E Hwf rid cb Hl.
  pose proof (run_inbound_shrinks _ _ _ _ _ _ _ E Hl) as Hl0.
  apply run_inbound_frame in E as (_&_&_&->&_). eauto.
Qed.

Lemma wait_for_reply_wf rid st r st' ev :
  _wait_for_reply rid st = (r, st', ev) → pending_wf st → pending_wf st'.
Proof.
  rewrite wait_for_reply_eq.
  destruct (run_inbound _ _) as [[r1 st1] ev1] eqn:E. intros [= <- <- <-] Hwf.
  eapply run_inbound_wf; [done|]. intros rid' cb. simpl.
  rewrite length_app. simpl. destruct (decide (rid = rid')) as [->|Hne].
  - rewrite lookup_insert_eq. intros [= <-]. lia.
  - rewrite lookup_insert_ne by done. intros Hl. apply Hwf in Hl. lia.
Qed.

(** X2.  The message loop never registers anything: an entry of
    [PendingReplies] after a run was there before.  Registered callbacks
    are always closures that exist, through the message loop and through
    [_wait_for_reply], whatever its outcome. *)
Theorem pending_replies_well_formed st :
  (∀ xs rid cb,
      _pending_replies (run_inbound xs st).1.2 !! rid = Some cb →
      _pending_replies st !! rid = Some cb)
  ∧ (pending_wf st →
     (∀ xs, pending_wf (run_inbound xs st).1.2) ∧
     (∀ rid, pending_wf (_wait_for_reply rid st).1.2)).
Proof.
  split; [|intros Hwf; split].
  - intros xs rid cb. destruct (run_inbound xs st) as [[r st'] ev] eqn:E.
    by eapply run_inbound_shrinks.
  - intros xs. destruct (run_inbound xs st) as [[r st'] ev] eqn:E.
    by eapply run_inbound_wf.
  - intros rid. destruct (_wait_for_reply rid st) as [[r st'] ev] eqn:E.
    by eapply wait_for_reply_wf.
Qed.

Lemma run_inbound_unowned xs st r st' ev cb v :
  run_inbound xs st = (r, st', ev) →
  (∀ rid, _pending_replies st !! rid ≠ Some cb) →
  callbacks st !! cb = Some v →
  callbacks st' !! cb = Some v.
Proof.
  revert st st' r ev. induction xs as [|x xs IH]; intros st st' r ev.
  - by intros [= <- <- <-].
  - rewrite run_inbound_cons.
    destruct (run_step_cases st x)
      as [(peer&msg&rid'&cb'&_&_&Hcb&->)|(st1&->&_&Hp&Hc&_)];
      destruct (run_inbound xs _) as [[r2 st2] ev2] eqn:H2;
      intros [= <- <- <-] Hun Hv; eapply IH in H2; try done.
    + simpl. intros rid Hl. apply lookup_delete_Some in Hl as [_ Hl]. by eapply Hun.
    + simpl. rewrite list_lookup_insert_ne; [done|]. intros ->. by eapply Hun.
    + intros rid. rewrite Hp. apply Hun.
    + by rewrite Hc.
Qed.

Lemma run_inbound_owner xs st r st' ev rid cb :
  run_inbound xs st = (r, st', ev) →
  _pending_replies st !! rid = Some cb →
  (∀ rid', _pending_replies st !! rid' = Some cb → rid' = rid) →
  callbacks st !! cb = Some None →
  (_pending_replies st' !! rid = Some cb ∧ callbacks st' !! cb = Some None ∧
   deliveries rid ev = 0%nat)
  ∨ (∃ m, request_id m = Some rid ∧ callbacks st' !! cb = Some (Some m) ∧
          _pending_replies st' !! rid = None ∧ deliveries rid ev = 1%nat).
Proof.
  revert st st' r ev. induction xs as [|x xs IH]; intros st st' r ev.
  - intros [= <- <- <-]. by left.
  - rewrite run_inbound_cons.
    destruct (run_step_cases st x)
      as [(peer&msg&rid'&cb'&_&Hid&Hcb&->)|(st1&->&_&Hp&Hc&_)];
      destruct (run_inbound xs _) as [[r2 st2] ev2] eqn:H2;
      intros [= <- <- <-] Hrid Huniq Hnone.
    + simpl. rewrite deliveries_cons. simpl.
      destruct (decide (rid' = rid)) as [->|Hne].
      * assert (cb' = cb) as -> by congruence.
        rewrite bool_decide_eq_true_2 by done. right. exists msg.
        assert (∀ rid', _pending_replies
                  (set_callbacks <[cb:=Some msg]> (set_pending_replies (delete rid) st))
                  !! rid' ≠ Some cb) as Hun.
        { simpl. intros rid' Hl. apply lookup_delete_Some in Hl as [? Hl].
          apply Huniq in Hl. done. }
        split_and!; [done| | |].
        -- eapply run_inbound_unowned; [done..|]. simpl.
           apply list_lookup_insert_eq. by eapply lookup_lt_Some.
        -- destruct (_pending_replies st2 !! rid) as [cb2|] eqn:Hl; [|done].
           eapply run_inbound_shrinks in Hl; [|done]. simpl in Hl.
           by rewrite lookup_delete_eq in Hl.
        -- eapply run_inbound_deliveries in H2 as [_ ->]; [done|].
           simpl. apply lookup_delete_eq.
      * rewrite bool_decide_eq_false_2 by done. simpl.
        assert (cb' ≠ cb) by (intros ->; by apply Hne, Huniq).
        eapply IH; [done| | |]; simpl.
        -- by rewrite lookup_delete_ne.
        -- intros rid'' Hl. apply lookup_delete_Some in Hl as [_ Hl]. by apply Huniq.
        -- by rewrite list_lookup_insert_ne.
    + simpl. eapply IH; [done| | |].
      * by rewrite Hp.
      * intros rid'. rewrite Hp. apply Huniq.
      * by rewrite Hc.
Qed.

(** X3.  From a state whose registered callbacks all exist, a reply
    returned by [_wait_for_reply] for request [rid] is a message that
    carried that very id; it was handed over exactly once and its slot is
    gone from [PendingReplies]. *)
Theorem wait_for_reply_success rid st reply st' ev :
  pending_wf st →
  _wait_for_reply rid st = (Ok reply, st', ev) →
  request_id reply = Some rid ∧
  _pending_replies st' !! rid = None ∧
  deliveries rid ev = 1%nat ∧
  callbacks st' !! length (callbacks st) = Some (Some reply).
Proof.
  intros Hwf. rewrite wait_for_reply_eq.
  destruct (run_inbound _ _) as [[r1 st1] ev1] eqn:E.
  eapply (run_inbound_owner _ _ _ _ _ rid (length (callbacks st))) in E; simpl.
  - destruct E as [(_&Hc&_)|(m&Hid&Hc&Hp&Hd)]; rewrite Hc; [done|].
    by intros [= <- <- <-].
  - apply lookup_insert_eq.
  - intros rid'. destruct (decide (rid = rid')) as [->|Hne]; [done|].
    rewrite lookup_insert_ne by done. intros Hl. apply Hwf in Hl. lia.
  - by rewrite lookup_app_r, Nat.sub_diag.
Qed.

(** ** Fetching *)

Lemma fetch_starting_at_outcomes peer start st r st' ev :
  _fetch_headers_starting_at peer start st = (r, st', ev) →
  issued st' = S (issued st) ∧
  requests ev = [batch_request peer start (request_ids (issued st))] ∧
  match r with
  | Ok batch => batch ≠ []
  | Raise TimeoutError | Raise OperationCancelled | Raise KeyError
  | Raise EmptyGetBlockHeadersReply => True
  | Raise _ => False
  end.
Proof.
  rewrite fetch_starting_at_eq. simpl.
  destruct (_wait_for_reply _ _) as [[r1 st1] ev1] eqn:E. intros [= <- <- <-].
  apply wait_for_reply_frame in E as (_ & Hi & _ & Hev & _ & Herr).
  split_and!; [done| |].
  - unfold requests, batch_request. rewrite filter_cons_True by done.
    f_equal. apply deliveries_only_counts in Hev as [Hs _].
    unfold sends in Hs. by apply nil_length_inv.
  - destruct r1 as [reply|e].
    + by destruct (headers reply) as [[|]|].
    + by destruct (Herr e eq_refl) as [-> | ->].
Qed.

Lemma requests_app evs1 evs2 : requests (evs1 ++ evs2) = requests evs1 ++ requests evs2.
Proof. apply filter_app. Qed.

Lemma sends_requests evs : sends evs = length (requests evs).
Proof. reflexivity. Qed.

Lemma fetch_attempts_outcomes n start peer st r st' ev :
  fetch_attempts n start peer st = (r, st', ev) →
  issued st' = (issued st + sends ev)%nat ∧
  requests ev =
    (λ i, batch_request peer start (request_ids i)) <$> seq (issued st) (sends ev) ∧
  match r with
  | Ok batch => batch ≠ []
  | Raise TooManyTimeouts | Raise OperationCancelled | Raise KeyError
  | Raise EmptyGetBlockHeadersReply => True
  | Raise _ => False
  end.
Proof.
  revert st r st' ev. induction n as [|n IH]; intros st r st' ev.
  - intros [= <- <- <-]. split_and!; try done.
  - rewrite fetch_attempts_S.
    destruct (_fetch_headers_starting_at peer start st) as [[r1 st1] ev1] eqn:E.
    apply fetch_starting_at_outcomes in E as (Hi & Hreq & Hr).
    assert (sends ev1 = 1%nat) as Hs1 by (by rewrite sends_requests, Hreq).
    assert (r1 = Raise TimeoutError ∨ r1 ≠ Raise TimeoutError) as [->|Hnt].
    { destruct r1 as [|[]]; auto. }
    + destruct (fetch_attempts n start peer st1) as [[r2 st2] ev2] eqn:E2.
      intros [= <- <- <-]. apply IH in E2 as (Hi2 & Hreq2 & Hr2).
      rewrite sends_app, sends_cons, Hs1. simpl.
      rewrite requests_app. change (EvSleep (1 # 2) :: ev2) with ([EvSleep (1 # 2)] ++ ev2).
      rewrite requests_app, Hreq, Hreq2, Hi. simpl. split_and!; [lia|done|done].
    + intros Heq. assert ((r, st', ev) = (r1, st1, ev1)) as [= -> -> ->].
      { rewrite <- Heq. destruct r1 as [|[]]; done. }
      rewrite Hs1, Hreq. simpl. split_and!; [lia|done|].
      destruct r1 as [|[]]; done.
Qed.

Lemma fetch_headers_results start_block peer st r st' ev :
  fetch_headers start_block peer st = (r, st', ev) →
  match r with
  | Ok batch => batch ≠ [] ∧ start_block ≠ 0
  | Raise ValidationError => start_block = 0 ∧ st' = st ∧ ev = []
  | Raise TooManyTimeouts | Raise OperationCancelled | Raise KeyError
  | Raise EmptyGetBlockHeadersReply => start_block ≠ 0
  | Raise _ => False
  end.
Proof.
  unfold fetch_headers, GENESIS_BLOCK_NUMBER.
  destruct (start_block =? 0) eqn:Hz.
  - intros [= <- <- <-]. by apply Z.eqb_eq in Hz.
  - apply Z.eqb_neq in Hz. intros E.
    apply fetch_attempts_outcomes in E as (_&_&Hr). destruct r as [|[]]; done.
Qed.

(** X4.  [fetch_headers] never lets a [TimeoutError] out: a timeout is
    retried or ends in [TooManyTimeouts].  It raises [ValidationError]
    exactly for the genesis number, and then nothing was sent and nothing
    changed; a batch it returns is never empty. *)
Theorem fetch_headers_outcomes start_block peer st r st' ev :
  fetch_headers start_block peer st = (r, st', ev) →
  match r with
  | Ok batch => batch ≠ [] ∧ start_block ≠ 0
  | Raise ValidationError => start_block = 0 ∧ st' = st ∧ ev = []
  | Raise TooManyTimeouts | Raise OperationCancelled | Raise KeyError
  | Raise EmptyGetBlockHeadersReply => start_block ≠ 0
  | Raise _ => False
  end.
Proof. apply fetch_headers_results. Qed.

(** X5.  Every attempt of a fetch is a new request: the batch requests
    sent carry, in order, the next ids drawn from the generator, one per
    request, and the generator has advanced by the number of requests. *)
Theorem fetch_headers_request_ids start_block peer st :
  let '(_, st', ev) := fetch_headers start_block peer st in
  issued st' = (issued st + sends ev)%nat ∧
  requests ev =
    (λ i, batch_request peer start_block (request_ids i)) <$> seq (issued st) (sends ev).
Proof.
  destruct (fetch_headers start_block peer st) as [[r st'] ev] eqn:E.
  unfold fetch_headers in E. destruct (start_block =? GENESIS_BLOCK_NUMBER).
  - injection E as <- <- <-. change (sends []) with 0%nat. split; [lia|done].
  - by apply fetch_attempts_outcomes in E as (?&?&_).
Qed.

(** ** Importing a batch *)

Lemma set_headerdb_id st : set_headerdb (λ _, headerdb st) st = st.
Proof. by destruct st. Qed.

Lemma validate_header_accepts header parent st :
  is_genesis header = false →
  coro_get_block_header_by_hash (headerdb st) (parent_hash header) = Some parent →
  validate_header (get_vm_class_for_block_number (block_number header))
    header parent = true →
  _validate_header header st = (Ok tt, st, [EvValidate header parent true]).
Proof.
  intros Hg Hp Hv. unfold _validate_header. rewrite Hg.
  unfold mbind, M_bind, bind, get, emit. simpl. rewrite Hp. simpl. by rewrite Hv.
Qed.

Lemma validate_header_rejects header st :
  (is_genesis header = true ∨
   ∃ parent,
     coro_get_block_header_by_hash (headerdb st) (parent_hash header) = Some parent ∧
     validate_header (get_vm_class_for_block_number (block_number header))
       header parent = false) →
  ∃ ev, _validate_header header st = (Raise ValidationError, st, ev) ∧ persisted ev = [].
Proof.
  unfold _validate_header. intros [Hg|(parent&Hp&Hv)].
  - rewrite Hg. by eexists.
  - destruct (is_genesis header); [by eexists|].
    unfold mbind, M_bind, bind, get, emit. simpl. rewrite Hp. simpl. rewrite Hv.
    by eexists.
Qed.

Lemma validate_header_orphan header st :
  is_genesis header = false →
  coro_get_block_header_by_hash (headerdb st) (parent_hash header) = None →
  _validate_header header st = (Raise HeaderNotFound, st, []).
Proof.
  intros Hg Hp. unfold _validate_header. rewrite Hg.
  unfold mbind, M_bind, bind, get. simpl. by rewrite Hp.
Qed.

Lemma persisted_app evs1 evs2 : persisted (evs1 ++ evs2) = persisted evs1 ++ persisted evs2.
Proof. apply omap_app. Qed.

Lemma guarded_app evs1 evs2 : guarded evs1 → guarded evs2 → guarded (evs1 ++ evs2).
Proof. induction 1; simpl; eauto using guarded. Qed.

Lemma imported_facts (db : DB) hs evs db' :
  imported db hs evs db' →
  db' = foldl coro_persist_header db hs ∧ persisted evs = hs ∧ guarded evs.
Proof.
  induction 1 as [|db header parent hs evs db' Hg Hp Hv _ (-> & Hpe & Hgu)]; simpl.
  - split_and!; [done..|constructor].
  - split_and!; [done|by rewrite Hpe|by constructor].
Qed.

(** Importing a batch whose first headers are accepted is importing those
    and then the rest. *)
Lemma import_from_prefix new_tip hs1 hs2 peer st evs1 db1 :
  imported (headerdb st) hs1 evs1 db1 →
  import_from new_tip (hs1 ++ hs2) peer st =
    let '(r, st2, evs2) :=
      import_from (tip_after new_tip hs1) hs2 peer (set_headerdb (λ _, db1) st) in
    (r, st2, evs1 ++ evs2).
Proof.
  revert new_tip st evs1. induction hs1 as [|h hs1 IH]; intros new_tip st evs1 Himp.
  - inversion Himp; subst. rewrite set_headerdb_id. simpl.
    by destruct (import_from _ hs2 peer st) as [[r st2] evs2].
  - inversion Himp as [|? ? parent ? evs ? Hg Hp Hv Hrest]; subst. simpl.
    unfold mbind, M_bind, bind, try_except.
    rewrite (validate_header_accepts h parent st) by done.
    unfold persist_header, mbind, M_bind, bind, emit, modify. simpl.
    rewrite (IH (Some (block_number h)) (set_headerdb (λ db, coro_persist_header db h) st)
               evs) by done.
    assert (tip_after (Some (block_number h)) hs1 = tip_after new_tip (h :: hs1)) as ->.
    { unfold tip_after. rewrite last_cons. by destruct (last hs1). }
    by destruct (import_from _ hs2 peer _) as [[r st2] evs2].
Qed.

(** X6.  A batch is imported up to its first header that the rules
    reject (or that is a genesis header): the headers before it are
    persisted and stay so, that header and the ones after it are not, and
    the error is [LESAnnouncementProcessingError] for that header. *)
Theorem import_stops_at_rejected_header hs1 header hs2 peer st evs1 db1 :
  imported (headerdb st) hs1 evs1 db1 →
  (is_genesis header = true ∨
   ∃ parent,
     coro_get_block_header_by_hash db1 (parent_hash header) = Some parent ∧
     validate_header (get_vm_class_for_block_number (block_number header))
       header parent = false) →
  ∃ evs,
    _import_headers_from_peer (hs1 ++ header :: hs2) peer st =
      (Raise (LESAnnouncementProcessingError (InvalidHeader peer header)),
       set_headerdb (λ db, foldl coro_persist_header db hs1) st, evs) ∧
    persisted evs = hs1.
Proof.
  intros Himp Hrej. unfold _import_headers_from_peer.
  rewrite (import_from_prefix _ _ _ _ _ _ _ Himp).
  destruct (imported_facts _ _ _ _ Himp) as (-> & Hpe & _).
  destruct (validate_header_rejects header
              (set_headerdb (λ _, foldl coro_persist_header (headerdb st) hs1) st) Hrej)
    as (ev & Hval & Hnone).
  simpl. unfold mbind, M_bind, bind, try_except. rewrite Hval. simpl.
  eexists. split; [reflexivity|].
  by rewrite !persisted_app, Hpe, Hnone, !app_nil_r.
Qed.

(** X7.  A header whose parent the database does not hold ends the import
    with [HeaderNotFound]; this is no [ValidationError], so it is not
    turned into [LESAnnouncementProcessingError].  The headers before it
    stay persisted. *)
Theorem import_stops_at_orphan_header hs1 header hs2 peer st evs1 db1 :
  imported (headerdb st) hs1 evs1 db1 →
  is_genesis header = false →
  coro_get_block_header_by_hash db1 (parent_hash header) = None →
  _import_headers_from_peer (hs1 ++ header :: hs2) peer st =
    (Raise HeaderNotFound, set_headerdb (λ db, foldl coro_persist_header db hs1) st, evs1).
Proof.
  intros Himp Hg Hp. unfold _import_headers_from_peer.
  rewrite (import_from_prefix _ _ _ _ _ _ _ Himp).
  destruct (imported_facts _ _ _ _ Himp) as (-> & _ & _).
  simpl. unfold mbind, M_bind, bind, try_except.
  rewrite validate_header_orphan by done. simpl. by rewrite app_nil_r.
Qed.

(** ** What header synchronisation does to the database *)

Lemma untouched_refl st : untouched st st.
Proof. by repeat split. Qed.

Lemma untouched_trans st1 st2 st3 : untouched st1 st2 → untouched st2 st3 → untouched st1 st3.
Proof. unfold untouched. intros (?&?) (?&?). split_and!; congruence. Qed.

Lemma same_stores_untouched st st' : same_stores st st' → untouched st st'.
Proof. intros (?&?&?). by repeat split. Qed.

Lemma fetch_events_trace peer start evs :
  Forall (fetch_event peer start) evs → guarded evs ∧ persisted evs = [].
Proof.
  induction 1 as [|e evs He _ [IHg IHp]]; [split; [constructor|done]|].
  destruct e; try done; (split; [by constructor|done]).
Qed.

Lemma validate_header_trace header st r st' ev :
  _validate_header header st = (r, st', ev) →
  st' = st ∧ guarded ev ∧ persisted ev = [] ∧
  match r with
  | Ok _ | Raise ValidationError | Raise HeaderNotFound => True
  | Raise _ => False
  end.
Proof.
  unfold _validate_header. destruct (is_genesis header).
  { intros [= <- <- <-]. split_and!; try done. constructor. }
  unfold mbind, M_bind, bind, get, emit. simpl.
  destruct (coro_get_block_header_by_hash _ _) as [parent|]; simpl.
  - destruct (validate_header _ header parent); simpl; intros [= <- <- <-];
      (split_and!; try done; repeat constructor; done).
  - intros [= <- <- <-]. split_and!; try done. constructor.
Qed.

Lemma import_from_trace new_tip hs peer st r st' ev :
  import_from new_tip hs peer st = (r, st', ev) →
  guarded ev ∧
  headerdb st' = foldl coro_persist_header (headerdb st) (persisted ev) ∧
  untouched st st' ∧ network st' = network st ∧
  match r with
  | Ok _ | Raise (LESAnnouncementProcessingError _) | Raise HeaderNotFound => True
  | Raise _ => False
  end.
Proof.
  revert new_tip st r st' ev. induction hs as [|h hs IH]; intros new_tip st r st' ev.
  - intros [= <- <- <-]. split_and!; try done. constructor.
  - simpl. unfold mbind, M_bind, bind, try_except.
    destruct (_validate_header h st) as [[r0 st0] ev0] eqn:Ev.
    pose proof Ev as Ev'. apply validate_header_trace in Ev' as (-> & Hg0 & Hp0 & Hr0).
    destruct r0 as [[]|e].
    + destruct (validate_header_cases h st) as [(parent&_&_&_&Heq)|(?&?&Heq)];
        rewrite Heq in Ev; [|done]. injection Ev as <-.
      unfold persist_header, mbind, M_bind, bind, emit, modify. simpl.
      destruct (import_from _ hs peer _) as [[r1 st1] ev1] eqn:E.
      intros [= <- <- <-]. apply IH in E as (Hg & Hdb & Hun & Hn & Hr).
      split_and!; try done. by constructor.
    + destruct e; try done; simpl; intros [= <- <- <-];
        rewrite ?app_nil_r, ?Hp0; split_and!; try done; apply untouched_refl.
Qed.

Lemma sync_loop_trace fuel peer hi start st r st' ev :
  sync_loop fuel peer hi start st = Some (r, st', ev) →
  guarded ev ∧
  headerdb st' = foldl coro_persist_header (headerdb st) (persisted ev) ∧
  untouched st st' ∧
  (∀ e, r = Raise e → announcement_error e).
Proof.
  revert start st r st' ev. induction fuel as [|fuel IH]; intros start st r st' ev;
    rewrite sync_loop_unfold; destruct (start <? hi_block_number hi);
    try done;
    try (intros [= <- <- <-]; split_and!;
         [constructor|done|apply untouched_refl|done]).
  destruct (fetch_headers start peer st) as [[r1 st1] ev1] eqn:Ef.
  pose proof (fetch_headers_results _ _ _ _ _ _ Ef) as Hout.
  apply fetch_headers_spec in Ef as (Hs & Hev & _).
  apply fetch_events_trace in Hev as [Hg1 Hp1].
  pose proof Hs as (Hdb1 & _). apply same_stores_untouched in Hs.
  destruct r1 as [batch|e].
  2:{ intros [= ? ? ?]. subst r st' ev. rewrite Hp1. split_and!; try done.
      intros e' [= <-]. by destruct e. }
  destruct (_import_headers_from_peer batch peer st1) as [[r2 st2] ev2] eqn:Ei.
  pose proof (import_from_spec _ _ _ _ _ _ _ Ei) as [_ Htip].
  apply import_from_trace in Ei as (Hg2 & Hdb2 & Hun2 & _ & Hr2).
  assert (headerdb st2 = foldl coro_persist_header (headerdb st) (persisted (ev1 ++ ev2)))
    as Hdb12 by (by rewrite persisted_app, Hp1, Hdb2, Hdb1).
  destruct r2 as [[tip|]|e].
  - destruct (sync_loop fuel peer hi tip st2) as [[[r3 st3] ev3]|] eqn:El; [|done].
    intros [= ? ? ?]. subst r st' ev. apply IH in El as (Hg3 & Hdb3 & Hun3 & Hr3).
    split_and!; eauto using guarded_app, untouched_trans.
    rewrite app_assoc, persisted_app, foldl_app, <- Hdb12. done.
  - destruct (Htip None eq_refl) as [Hnone _]. destruct Hout as [Hne _].
    unfold tip_after in Hnone. destruct (last batch) eqn:Hl; [done|].
    by apply last_None in Hl.
  - intros [= ? ? ?]. subst r st' ev.
    split_and!; eauto using guarded_app, untouched_trans.
    intros e' [= <-]. by destruct e.
Qed.

(** X8.  In the fetch loop no header reaches the database unvalidated:
    whatever the outcome of the loop, every call of [coro_persist_header]
    comes right after the rules accepted that very header, and the
    database it leaves is the one it found with exactly those headers
    persisted, in that order. *)
Theorem fetch_loop_persists_only_validated fuel peer head_info start_block st r st' ev :
  sync_loop fuel peer head_info start_block st = Some (r, st', ev) →
  guarded ev ∧
  headerdb st' = foldl coro_persist_header (headerdb st) (persisted ev).
Proof. intros E. by apply sync_loop_trace in E as (?&?&_). Qed.

(** ** Choosing where to start *)

Lemma get_sync_start_block_cases peer head_info st :
  let chain_head := coro_get_canonical_head (headerdb st) in
  (block_number chain_head = 0 →
     get_sync_start_block peer head_info st = (Ok 1, st, []))
  ∧ (block_number chain_head ≠ 0 →
     _last_processed_announcements st !! peer_id peer = None →
     let oldest := Z.max 1 (block_number chain_head - max_headers_fetch peer + 1) in
     match fetch_headers oldest peer st with
     | (Ok hs, st1, ev1) =>
         get_sync_start_block peer head_info st =
           (Ok (Z.max (block_number chain_head) 1),
            set_headerdb (λ db, foldl coro_persist_header db hs) st1,
            ev1 ++ map EvPersist hs)
     | (Raise EmptyGetBlockHeadersReply, st1, ev1) =>
         get_sync_start_block peer head_info st =
           (Raise (LESAnnouncementProcessingError (NoCommonAncestors peer)), st1, ev1)
     | (Raise e, st1, ev1) =>
         get_sync_start_block peer head_info st = (Raise e, st1, ev1)
     end)
  ∧ (block_number chain_head ≠ 0 →
     ∀ last, _last_processed_announcements st !! peer_id peer = Some last →
     get_sync_start_block peer head_info st =
       (Ok (Z.max (hi_block_number last - hi_reorg_depth head_info) 1), st, [])).
Proof.
  intros chain_head. split_and!.
  - intros Hz. unfold get_sync_start_block, mbind, M_bind, bind, get. simpl.
    fold chain_head. by rewrite Hz.
  - intros Hne Hnone oldest.
    unfold get_sync_start_block, mbind, M_bind, bind, get, try_except. simpl.
    fold chain_head. unfold GENESIS_BLOCK_NUMBER.
    rewrite (proj2 (Z.eqb_neq _ _) Hne), Hnone. simpl.
    change (0 + 1) with 1. fold oldest.
    destruct (fetch_headers oldest peer st) as [[[hs|e] st1] ev1].
    + rewrite persist_headers_eq. simpl. by rewrite !app_nil_r.
    + destruct e; simpl; by rewrite ?app_nil_r.
  - intros Hne last Hlast.
    unfold get_sync_start_block, mbind, M_bind, bind, get. simpl.
    fold chain_head. unfold GENESIS_BLOCK_NUMBER.
    rewrite (proj2 (Z.eqb_neq _ _) Hne), Hlast. reflexivity.
Qed.


Lemma persisted_persists hs : persisted (map EvPersist hs) = hs.
Proof. induction hs as [|h hs IH]; [done|]. simpl. by rewrite IH. Qed.

Lemma get_sync_start_block_results peer head_info st r st' ev :
  get_sync_start_block peer head_info st = (r, st', ev) →
  match r with
  | Ok start_block => 1 ≤ start_block
  | Raise (LESAnnouncementProcessingError why) => why = NoCommonAncestors peer
  | Raise TooManyTimeouts | Raise OperationCancelled | Raise KeyError => True
  | Raise _ => False
  end
  ∧ (block_number (coro_get_canonical_head (headerdb st)) = 0
     ∨ is_Some (_last_processed_announcements st !! peer_id peer) →
     st' = st ∧ ev = []).
Proof.
  intros E.
  destruct (get_sync_start_block_cases peer head_info st) as (Hgen & Hfirst & Hknown).
  destruct (decide (block_number (coro_get_canonical_head (headerdb st)) = 0)) as [Hz|Hnz].
  { rewrite (Hgen Hz) in E. injection E as <- <- <-. done. }
  destruct (_last_processed_announcements st !! peer_id peer) as [last|] eqn:Hl.
  { rewrite (Hknown Hnz last eq_refl) in E. injection E as <- <- <-.
    split; [lia|done]. }
  specialize (Hfirst Hnz eq_refl). simpl in Hfirst.
  destruct (fetch_headers _ peer st) as [[r1 st1] ev1] eqn:Ef.
  apply fetch_headers_results in Ef.
  split; [|intros [?|[? [=]]]; done].
  destruct r1 as [hs|e].
  - rewrite Hfirst in E. injection E as <- <- <-. lia.
  - destruct e; rewrite Hfirst in E; injection E as <- <- <-; try done.
    destruct Ef as [Hz' _]. lia.
Qed.

(** X9.  [get_sync_start_block] never returns a number below 1, so the
    genesis header is never asked for.  It raises neither
    [ValidationError] nor [TimeoutError], and an empty reply only ever
    leaves it as [LESAnnouncementProcessingError].  Unless the peer is
    met for the first time on a chain that has left genesis, it sends
    nothing and changes nothing. *)
Theorem get_sync_start_block_outcomes peer head_info st r st' ev :
  get_sync_start_block peer head_info st = (r, st', ev) →
  match r with
  | Ok start_block => 1 ≤ start_block
  | Raise (LESAnnouncementProcessingError why) => why = NoCommonAncestors peer
  | Raise TooManyTimeouts | Raise OperationCancelled | Raise KeyError => True
  | Raise _ => False
  end
  ∧ (block_number (coro_get_canonical_head (headerdb st)) = 0
     ∨ is_Some (_last_processed_announcements st !! peer_id peer) →
     st' = st ∧ ev = []).
Proof. apply get_sync_start_block_results. Qed.

Lemma get_sync_start_block_trace peer hi st r st' ev :
  get_sync_start_block peer hi st = (r, st', ev) →
  untouched st st' ∧
  headerdb st' = foldl coro_persist_header (headerdb st) (persisted ev).
Proof.
  intros E.
  destruct (get_sync_start_block_cases peer hi st) as (Hgen & Hfirst & Hknown).
  destruct (decide (block_number (coro_get_canonical_head (headerdb st)) = 0)) as [Hz|Hnz].
  { rewrite (Hgen Hz) in E. injection E as <- <- <-. split; [apply untouched_refl|done]. }
  destruct (_last_processed_announcements st !! peer_id peer) as [last|] eqn:Hl.
  { rewrite (Hknown Hnz last eq_refl) in E. injection E as <- <- <-.
    split; [apply untouched_refl|done]. }
  specialize (Hfirst Hnz eq_refl). simpl in Hfirst.
  destruct (fetch_headers _ peer st) as [[r1 st1] ev1] eqn:Ef.
  apply fetch_headers_spec in Ef as (Hs & Hev & _).
  apply fetch_events_trace in Hev as [_ Hp1]. pose proof Hs as (Hdb & _).
  apply same_stores_untouched in Hs.
  destruct r1 as [hs|e].
  - rewrite Hfirst in E. injection E as <- <- <-.
    rewrite persisted_app, Hp1, persisted_persists. simpl. rewrite Hdb.
    split; [|done]. destruct Hs as (?&?). by repeat split.
  - destruct e; rewrite Hfirst in E; injection E as <- <- <-; by rewrite Hp1.
Qed.

(** ** One announcement *)

Lemma process_announcement_frame peer head_info st r st' ev :
  process_announcement peer head_info st = Some (r, st', ev) →
  _last_processed_announcements st' = _last_processed_announcements st ∧
  caches st' = caches st ∧
  headerdb st' = foldl coro_persist_header (headerdb st) (persisted ev).
Proof.
  unfold process_announcement. destruct (coro_header_exists _ _).
  { by intros [= <- <- <-]. }
  destruct (get_sync_start_block peer head_info st) as [[r1 st1] ev1] eqn:Eg.
  apply get_sync_start_block_trace in Eg as [Hun1 Hdb1].
  destruct r1 as [start|e].
  2:{ intros [= <- <- <-]. by destruct Hun1 as (?&?). }
  destruct (sync_loop _ peer head_info start st1) as [[[r2 st2] ev2]|] eqn:El; [|done].
  intros [= <- <- <-]. apply sync_loop_trace in El as (_ & Hdb2 & Hun2 & _).
  destruct (untouched_trans _ _ _ Hun1 Hun2) as (?&?).
  split_and!; try done. by rewrite persisted_app, foldl_app, <- Hdb1.
Qed.

(** X10.  Processing an announcement never touches
    [LastProcessedAnnouncements] or the lookup caches, whatever its
    outcome; the header database it leaves is the one it found with the
    headers it persisted, in the order it persisted them. *)
Theorem process_announcement_effects peer head_info st r st' ev :
  process_announcement peer head_info st = Some (r, st', ev) →
  _last_processed_announcements st' = _last_processed_announcements st ∧
  caches st' = caches st ∧
  headerdb st' = foldl coro_persist_header (headerdb st) (persisted ev).
Proof. apply process_announcement_frame. Qed.


(** X12.  One turn of the announcement processor never lets an exception
    out.  After it the peer's entry in [LastProcessedAnnouncements] is
    the announcement when processing succeeded, is gone when processing
    failed, and the loop is left only on cancellation; a disconnect is
    sent for a protocol error or too many timeouts and for nothing else;
    the entries of all other peers are as before the turn. *)
Theorem processor_turn peer head_info st r st1 ev1 :
  process_announcement peer head_info st = Some (r, st1, ev1) →
  ∃ c st' ev2,
    _process_announcements peer head_info st = Some (Ok c, st', ev1 ++ ev2) ∧
    (∀ q, q ≠ peer_id peer →
       _last_processed_announcements st' !! q = _last_processed_announcements st !! q) ∧
    headerdb st' = headerdb st1 ∧
    match r with
    | Ok _ =>
        c = Continue ∧ ev2 = [] ∧
        _last_processed_announcements st' !! peer_id peer = Some head_info
    | Raise OperationCancelled => c = Break ∧ ev2 = [] ∧ st' = st1
    | Raise e =>
        c = Continue ∧
        _last_processed_announcements st' !! peer_id peer = None ∧
        ev2 =
          match e with
          | LESAnnouncementProcessingError _ => [EvDisconnect peer subprotocol_error]
          | TooManyTimeouts => [EvDisconnect peer timeout]
          | _ => []
          end ++ [EvCancel peer]
    end.
Proof.
  intros E. pose proof (process_announcement_frame _ _ _ _ _ _ E) as (Hl&_).
  unfold _process_announcements. rewrite E.
  destruct r as [[]|e].
  - exists Continue. eexists _, []. rewrite app_nil_r. split; [reflexivity|].
    simpl. split_and!; try done.
    + intros q Hq. by rewrite lookup_insert_ne, Hl.
    + apply lookup_insert_eq.
  - destruct e;
      try (exists Continue; eexists _, _; split; [reflexivity|]; simpl;
           split_and!; try done;
           [intros q Hq; by rewrite lookup_delete_ne, Hl|apply lookup_delete_eq]).
    exists Break, st1, []. rewrite app_nil_r. split_and!; try done.
    intros q _. by rewrite Hl.
Qed.

(** X13.  When the fetch loop ends without error, either it had nothing
    to do (the start was not below the announced number, nothing sent,
    nothing changed) or the header it persisted last has a number that
    is at least the announced one. *)
Theorem fetch_loop_reaches_head fuel peer head_info start_block st st' ev :
  sync_loop fuel peer head_info start_block st = Some (Ok tt, st', ev) →
  (hi_block_number head_info ≤ start_block ∧ st' = st ∧ ev = [])
  ∨ (∃ header, last (persisted ev) = Some header ∧
               hi_block_number head_info ≤ block_number header).
Proof.
  revert start_block st st' ev.
  induction fuel as [|fuel IH]; intros start st st' ev; rewrite sync_loop_unfold;
    destruct (start <? hi_block_number head_info) eqn:Hc; try done;
    try (intros [= <- <-]; left; by apply Z.ltb_ge in Hc).
  destruct (fetch_headers start peer st) as [[[batch|e] st1] ev1] eqn:Ef; [|done].
  apply fetch_headers_spec in Ef as (_ & Hev & _).
  apply fetch_events_trace in Hev as [_ Hp1].
  destruct (_import_headers_from_peer batch peer st1) as [[[[tip|]|e] st2] ev2] eqn:Ei;
    try done.
  apply import_from_spec in Ei as [_ Himp].
  destruct (Himp _ eq_refl) as [Htip Hi]. apply imported_facts in Hi as (_ & Hp2 & _).
  destruct (sync_loop fuel peer head_info tip st2) as [[[r3 st3] ev3]|] eqn:El; [|done].
  intros [= -> <- <-]. right.
  rewrite !persisted_app, Hp1, Hp2. simpl.
  apply IH in El as [(Hle & _ & ->)|(header & Hlast & Hle)].
  - simpl. rewrite app_nil_r. unfold tip_after in Htip.
    destruct (last batch) as [header|]; [|done]. injection Htip as ->. eauto.
  - exists header. rewrite last_app, Hlast. done.
Qed.

(** ** Lookups *)

Lemma deliveries_only_persisted evs : Forall is_delivery_event evs → persisted evs = [].
Proof. induction 1 as [|e evs He _ IH]; [done|]. by destruct e. Qed.

Lemma round_trip_trace rid st r st' ev peer req :
  _wait_for_reply rid (set_issued S st) = (r, st', ev) →
  sends (EvSend peer req :: ev) = 1%nat ∧
  persisted (EvSend peer req :: ev) = [] ∧
  same_stores st st'.
Proof.
  intros E. apply wait_for_reply_frame in E as (Hs & _ & _ & Hev & _).
  rewrite sends_cons. destruct (deliveries_only_counts _ Hev) as [-> _].
  split_and!; [done| |done]. simpl. by apply deliveries_only_persisted.
Qed.

Lemma alru_cache_cases {K V} `{EqDecision K} maxsize
    (load : LookupCaches → list (K * V)) store (fn : K → M V) k st r st' ev :
  alru_cache maxsize load store fn k st = (r, st', ev) →
  (∃ v, cache_get k (load (caches st)) = Some v ∧ r = Ok v ∧ ev = [] ∧
        headerdb st' = headerdb st ∧
        _last_processed_announcements st' = _last_processed_announcements st ∧
        network st' = network st)
  ∨ (cache_get k (load (caches st)) = None ∧
     ∃ st1, fn k st = (r, st1, ev) ∧ headerdb st' = headerdb st1 ∧
            _last_processed_announcements st' = _last_processed_announcements st1).
Proof.
  unfold alru_cache, mbind, M_bind, bind, get, modify. simpl.
  destruct (cache_get k _) as [v|]; simpl.
  - intros [= <- <- <-]. left. exists v. by split_and!.
  - destruct (fn k st) as [[[v|e] st1] ev1]; simpl; intros [= <- <- <-]; right;
      (split; [done|]); eexists; rewrite ?app_nil_r; by split_and!.
Qed.

Lemma get_block_header_by_hash_trace peer block_hash st r st' ev :
  _get_block_header_by_hash peer block_hash st = (r, st', ev) →
  sends ev = 1%nat ∧ persisted ev = [] ∧ same_stores st st'.
Proof.
  rewrite get_block_header_by_hash_eq. simpl.
  destruct (_wait_for_reply _ _) as [[r1 st1] ev1] eqn:E. intros [= <- <- <-].
  by eapply round_trip_trace.
Qed.

Lemma get_proof_trace peer block_hash account_key key from_level st r st' ev :
  _get_proof peer block_hash account_key key from_level st = (r, st', ev) →
  sends ev = 1%nat ∧ persisted ev = [] ∧ same_stores st st'.
Proof.
  unfold _get_proof, mbind, M_bind, bind, gen_request_id, emit, getitem. simpl.
  destruct (_wait_for_reply _ _) as [[[reply|e] st1] ev1] eqn:E; simpl.
  - destruct (proof reply); simpl; intros [= <- <- <-]; rewrite ?app_nil_r;
      by eapply round_trip_trace.
  - intros [= <- <- <-]. by eapply round_trip_trace.
Qed.

Lemma get_account_uncached_trace block_hash address st r st' ev :
  get_account_uncached block_hash address st = (r, st', ev) →
  (1 ≤ sends ev ≤ 2)%nat ∧ persisted ev = [] ∧ same_stores st st'.
Proof.
  unfold get_account_uncached, mbind, M_bind, bind, get. simpl.
  destruct (_get_proof _ _ _ _ _ st) as [[[prf|e] st1] ev1] eqn:E1;
    apply get_proof_trace in E1 as (Hs1 & Hp1 & Hf1).
  2:{ intros [= <- <- <-]. split_and!; [lia..|done|done]. }
  destruct (_get_block_header_by_hash _ _ st1) as [[[header|e] st2] ev2] eqn:E2;
    apply get_block_header_by_hash_trace in E2 as (Hs2 & Hp2 & Hf2).
  2:{ intros [= <- <- <-]. rewrite sends_app, persisted_app, Hp1, Hp2.
      split_and!; [lia..|done|eauto using same_stores_trans]. }
  unfold call. destruct (get_from_proof _ _ _) as [e|rlp_account]; simpl.
  - intros [= <- <- <-]. rewrite app_nil_r, sends_app, persisted_app, Hp1, Hp2.
    split_and!; [lia..|done|eauto using same_stores_trans].
  - destruct (rlp_decode_account _); simpl; intros [= <- <- <-];
      rewrite !app_nil_r, sends_app, persisted_app, Hp1, Hp2;
      (split_and!; [lia..|done|eauto using same_stores_trans]).
Qed.

(** X14.  A lookup is never retried and never writes to the header
    database: every call sends at most one request (at most two for
    [get_account], which asks for the proof and for the header),
    persists nothing, and leaves the header database and
    [LastProcessedAnnouncements] as they were, whether it returns or
    raises. *)
Theorem lookups_ask_once_and_persist_nothing st :
  (∀ block_hash,
     let '(_, st', ev) := get_block_header_by_hash block_hash st in
     (sends ev ≤ 1)%nat ∧ persisted ev = [] ∧ headerdb st' = headerdb st ∧
     _last_processed_announcements st' = _last_processed_announcements st)
  ∧ (∀ block_hash,
     let '(_, st', ev) := get_block_body_by_hash block_hash st in
     (sends ev ≤ 1)%nat ∧ persisted ev = [] ∧ headerdb st' = headerdb st ∧
     _last_processed_announcements st' = _last_processed_announcements st)
  ∧ (∀ block_hash,
     let '(_, st', ev) := get_receipts block_hash st in
     (sends ev ≤ 1)%nat ∧ persisted ev = [] ∧ headerdb st' = headerdb st ∧
     _last_processed_announcements st' = _last_processed_announcements st)
  ∧ (∀ block_hash address,
     let '(_, st', ev) := get_account block_hash address st in
     (sends ev ≤ 2)%nat ∧ persisted ev = [] ∧ headerdb st' = headerdb st ∧
     _last_processed_announcements st' = _last_processed_announcements st)
  ∧ (∀ block_hash key,
     let '(_, st', ev) := get_contract_code block_hash key st in
     (sends ev ≤ 1)%nat ∧ persisted ev = [] ∧ headerdb st' = headerdb st ∧
     _last_processed_announcements st' = _last_processed_announcements st).
Proof.
  split_and!; intros *.
  - destruct (get_block_header_by_hash _ _) as [[r st'] ev] eqn:E.
    apply alru_cache_cases in E as [(v&_&_&->&Hdb&Hl&_)|(_&st1&E&Hdb&Hl)];
      [split_and!; [compute; lia|done..]|].
    rewrite Hdb, Hl; clear Hdb Hl; revert E.
    unfold mbind, M_bind, bind, get. simpl.
    destruct (_get_block_header_by_hash _ _ st) as [[r2 st2] ev2] eqn:E.
    apply get_block_header_by_hash_trace in E as (?&?&(?&?&_)).
    intros [= <- <- <-]. split_and!; [lia|done..].
  - destruct (get_block_body_by_hash _ _) as [[r st'] ev] eqn:E.
    apply alru_cache_cases in E as [(v&_&_&->&Hdb&Hl&_)|(_&st1&E&Hdb&Hl)];
      [split_and!; [compute; lia|done..]|].
    rewrite Hdb, Hl; clear Hdb Hl; revert E.
    unfold mbind, M_bind, bind, get, gen_request_id, emit, getitem. simpl.
    destruct (_wait_for_reply _ _) as [[[reply|e'] st2] ev2] eqn:E;
      eapply round_trip_trace in E as (Hs&Hp&(?&?&_)); simpl.
    + destruct (bodies reply) as [[|]|]; simpl; intros [= <- <- <-];
        rewrite ?app_nil_r, Hs; split_and!; [lia|done..].
    + intros [= <- <- <-]. rewrite Hs. split_and!; [lia|done..].
  - destruct (get_receipts _ _) as [[r st'] ev] eqn:E.
    apply alru_cache_cases in E as [(v&_&_&->&Hdb&Hl&_)|(_&st1&E&Hdb&Hl)];
      [split_and!; [compute; lia|done..]|].
    rewrite Hdb, Hl; clear Hdb Hl; revert E.
    unfold mbind, M_bind, bind, get, gen_request_id, emit, getitem. simpl.
    destruct (_wait_for_reply _ _) as [[[reply|e'] st2] ev2] eqn:E;
      eapply round_trip_trace in E as (Hs&Hp&(?&?&_)); simpl.
    + destruct (receipts reply) as [[|]|]; simpl; intros [= <- <- <-];
        rewrite ?app_nil_r, Hs; split_and!; [lia|done..].
    + intros [= <- <- <-]. rewrite Hs. split_and!; [lia|done..].
  - destruct (get_account _ _ _) as [[r st'] ev] eqn:E.
    apply alru_cache_cases in E as [(v&_&_&->&Hdb&Hl&_)|(_&st1&E&Hdb&Hl)];
      [split_and!; [compute; lia|done..]|].
    rewrite Hdb, Hl; clear Hdb Hl; revert E.
    simpl. intros E. apply get_account_uncached_trace in E as (?&?&(?&?&_)).
    split_and!; [lia|done..].
  - destruct (get_contract_code _ _ _) as [[r st'] ev] eqn:E.
    apply alru_cache_cases in E as [(v&_&_&->&Hdb&Hl&_)|(_&st1&E&Hdb&Hl)];
      [split_and!; [compute; lia|done..]|].
    rewrite Hdb, Hl; clear Hdb Hl; revert E.
    unfold mbind, M_bind, bind, get, gen_request_id, emit, getitem. simpl.
    destruct (_wait_for_reply _ _) as [[[reply|e'] st2] ev2] eqn:E;
      eapply round_trip_trace in E as (Hs&Hp&(?&?&_)); simpl.
    + destruct (codes reply) as [[|]|]; simpl; intros [= <- <- <-];
        rewrite ?app_nil_r, Hs; split_and!; [lia|done..].
    + intros [= <- <- <-]. rewrite Hs. split_and!; [lia|done..].
Qed.

(** X15.  How the body, receipts and code lookups read a reply, on a
    cache miss.  No bodies, or no receipts, is [BlockNotFound]; no code
    is no error but the empty byte string; otherwise the first entry is
    the result; a reply without the expected field is [KeyError].  When
    the wait for the reply fails, the failure (a timeout included) is
    the failure of the lookup: it is not retried. *)
Theorem lookup_replies block_hash key st r st1 ev1 :
  _wait_for_reply (request_ids (issued st)) (set_issued S st) = (r, st1, ev1) →
  (cache_get block_hash (body_cache (caches st)) = None →
   (get_block_body_by_hash block_hash st).1.1 =
     match r with
     | Raise e => Raise e
     | Ok reply =>
         match bodies reply with
         | None => Raise KeyError
         | Some [] => Raise BlockNotFound
         | Some (body :: _) => Ok body
         end
     end)
  ∧ (cache_get block_hash (receipts_cache (caches st)) = None →
     (get_receipts block_hash st).1.1 =
       match r with
       | Raise e => Raise e
       | Ok reply =>
           match receipts reply with
           | None => Raise KeyError
           | Some [] => Raise BlockNotFound
           | Some (rs :: _) => Ok rs
           end
       end)
  ∧ (cache_get (block_hash, key) (code_cache (caches st)) = None →
     (get_contract_code block_hash key st).1.1 =
       match r with
       | Raise e => Raise e
       | Ok reply =>
           match codes reply with
           | None => Raise KeyError
           | Some [] => Ok []
           | Some (code :: _) => Ok code
           end
       end).
Proof.
  intros Hw. split_and!; intros Hmiss.
  - unfold get_block_body_by_hash. rewrite alru_cache_miss by done.
    unfold mbind, M_bind, bind, get, gen_request_id, emit, getitem. simpl.
    rewrite Hw. destruct r as [reply|e]; [|done].
    by destruct (bodies reply) as [[|]|].
  - unfold get_receipts. rewrite alru_cache_miss by done.
    unfold mbind, M_bind, bind, get, gen_request_id, emit, getitem. simpl.
    rewrite Hw. destruct r as [reply|e]; [|done].
    by destruct (receipts reply) as [[|]|].
  - unfold get_contract_code. rewrite alru_cache_miss by done.
    unfold mbind, M_bind, bind, get, gen_request_id, emit, getitem. simpl.
    rewrite Hw. destruct r as [reply|e]; [|done].
    by destruct (codes reply) as [[|]|].
Qed.

(** ** Retries and the fetch loop, run by run *)

Lemma timeouts_then_attempts k m start peer st st1 ev1 :
  timeouts_in_a_row peer start k st st1 ev1 →
  fetch_attempts (k + m) start peer st =
    let '(r, st2, ev2) := fetch_attempts m start peer st1 in (r, st2, ev1 ++ ev2).
Proof.
  induction 1 as [st|k st st1 ev1 st2 ev2 E _ IH].
  - simpl. by destruct (fetch_attempts m start peer st) as [[r st2] ev2].
  - change (S k + m)%nat with (S (k + m)). rewrite fetch_attempts_S, E, IH.
    destruct (fetch_attempts m start peer st2) as [[r st3] ev3].
    by rewrite <- app_assoc.
Qed.

Lemma too_many_timeouts_inv n start peer st st' ev :
  fetch_attempts n start peer st = (Raise TooManyTimeouts, st', ev) →
  timeouts_in_a_row peer start n st st' ev.
Proof.
  revert st st' ev. induction n as [|n IH]; intros st st' ev.
  - intros [= <- <-]. constructor.
  - rewrite fetch_attempts_S.
    destruct (_fetch_headers_starting_at peer start st) as [[r1 st1] ev1] eqn:E.
    pose proof (fetch_starting_at_spec _ _ _ _ _ _ E) as (_&_&_&Hne&_).
    assert (r1 = Raise TimeoutError ∨ r1 ≠ Raise TimeoutError) as [->|Hnt].
    { destruct r1 as [|[]]; auto. }
    + destruct (fetch_attempts n start peer st1) as [[r2 st2] ev2] eqn:E2.
      intros [= -> <- <-]. apply IH in E2. by econstructor.
    + intros Heq. exfalso. apply Hne. destruct r1 as [|[]]; congruence.
Qed.

Lemma iterations_network peer hi start st start' st' evs :
  iterations peer hi start st start' st' evs →
  (length (network st') ≤ length (network st))%nat.
Proof.
  induction 1 as [|start st batch st1 ev1 tip st2 ev2 start' st' evs _ Ef Ei _ IH];
    [done|].
  apply fetch_headers_spec in Ef as (_&_&_&_&_&Hle&_).
  apply import_from_trace in Ei as (_&_&_&Hn&_). rewrite Hn in IH. lia.
Qed.

Lemma iterations_loop peer hi start st start' st' evs fuel r st2 ev2 :
  iterations peer hi start st start' st' evs →
  (length (network st) < fuel)%nat →
  sync_loop fuel peer hi start' st' = Some (r, st2, ev2) →
  sync_loop fuel peer hi start st = Some (r, st2, evs ++ ev2).
Proof.
  intros Hit. revert fuel.
  induction Hit as [|start st batch st1 ev1 tip st2' ev2' start' st' evs Hlt Ef Ei Hit IH];
    intros fuel Hfuel Hloop; [done|].
  destruct fuel as [|fuel]; [lia|].
  pose proof (iterations_network _ _ _ _ _ _ _ Hit) as Hle.
  pose proof (fetch_headers_spec _ _ _ _ _ _ Ef) as (_&_&_&_&_&_&Hok).
  destruct (Hok batch eq_refl) as (_&_&Hnet).
  pose proof (import_from_trace _ _ _ _ _ _ _ Ei) as (_&_&_&Hn&_).
  assert (length (network st2') < fuel)%nat as Hfuel2 by (rewrite Hn; lia).
  destruct (sync_loop_enough fuel peer hi start' st') as [o Ho]; [lia|].
  rewrite (Ho (S fuel)) in Hloop by lia. injection Hloop as ->.
  rewrite sync_loop_unfold, (proj2 (Z.ltb_lt _ _) Hlt), Ef, Ei.
  rewrite (IH fuel Hfuel2 (Ho fuel ltac:(lia))). by rewrite <- !app_assoc.
Qed.

(** An error of a fetch made by the loop, at whatever iteration, is the
    error of [process_announcement]. *)
Lemma loop_fetch_error peer hi st start st0 ev0 start' st' evs e st1 ev1 :
  coro_header_exists (headerdb st) (hi_block_hash hi) = false →
  get_sync_start_block peer hi st = (Ok start, st0, ev0) →
  iterations peer hi start st0 start' st' evs →
  start' < hi_block_number hi →
  fetch_headers start' peer st' = (Raise e, st1, ev1) →
  process_announcement peer hi st = Some (Raise e, st1, ev0 ++ evs ++ ev1).
Proof.
  intros Hex Hg Hit Hlt Ef. unfold process_announcement. rewrite Hex, Hg.
  rewrite (iterations_loop _ _ _ _ _ _ _ _ (Raise e) st1 ev1 Hit); [done|lia|].
  by rewrite sync_loop_unfold, (proj2 (Z.ltb_lt _ _) Hlt), Ef.
Qed.

(** C7.  A fetch sends the batch request at most five times.  A timed out
    attempt is followed by a sleep of half a second and then by the
    attempts that are left; any other outcome of an attempt is the
    outcome of the fetch; [TooManyTimeouts] is raised exactly when five
    attempts in a row have timed out.  The announcement processor
    answers [TooManyTimeouts] by disconnecting the peer with reason
    [timeout], at whatever iteration of the fetch loop it was raised. *)
Theorem fetch_headers_retries start_block peer st :
  (start_block ≠ 0 →
     (∀ st' ev,
        timeouts_in_a_row peer start_block 5 st st' ev ↔
        fetch_headers start_block peer st = (Raise TooManyTimeouts, st', ev))
     ∧ (∀ k st1 ev1 r st2 ev2,
        (k < 5)%nat →
        timeouts_in_a_row peer start_block k st st1 ev1 →
        _fetch_headers_starting_at peer start_block st1 = (r, st2, ev2) →
        r ≠ Raise TimeoutError →
        fetch_headers start_block peer st = (r, st2, ev1 ++ ev2)))
  ∧ (let '(r, _, ev) := fetch_headers start_block peer st in
     (sends ev ≤ 5)%nat ∧
     Forall (fetch_event peer start_block) ev ∧
     (r = Raise TooManyTimeouts ↔ sleeps ev = 5%nat) ∧
     (r = Raise TooManyTimeouts → sends ev = 5%nat))
  ∧ max_consecutive_timeouts = 5%nat
  ∧ (∀ n st1 ev1,
      _fetch_headers_starting_at peer start_block st = (Raise TimeoutError, st1, ev1) →
      fetch_attempts (S n) start_block peer st =
        let '(r, st2, ev2) := fetch_attempts n start_block peer st1 in
        (r, st2, ev1 ++ EvSleep (1 # 2) :: ev2))
  ∧ (∀ n r st1 ev1,
      _fetch_headers_starting_at peer start_block st = (r, st1, ev1) →
      r ≠ Raise TimeoutError →
      fetch_attempts (S n) start_block peer st = (r, st1, ev1))
  ∧ fetch_attempts 0 start_block peer st = (Raise TooManyTimeouts, st, [])
  ∧ (∀ head_info st1 ev1,
      process_announcement peer head_info st = Some (Raise TooManyTimeouts, st1, ev1) →
      _process_announcements peer head_info st =
        Some (Ok Continue,
              set_last_processed_announcements (delete (peer_id peer)) st1,
              ev1 ++ [EvDisconnect peer timeout; EvCancel peer]))
  ∧ (∀ head_info sta start st0 ev0 st' evs st1 ev1,
      coro_header_exists (headerdb sta) (hi_block_hash head_info) = false →
      get_sync_start_block peer head_info sta = (Ok start, st0, ev0) →
      iterations peer head_info start st0 start_block st' evs →
      start_block < hi_block_number head_info →
      fetch_headers start_block peer st' = (Raise TooManyTimeouts, st1, ev1) →
      _process_announcements peer head_info sta =
        Some (Ok Continue,
              set_last_processed_announcements (delete (peer_id peer)) st1,
              (ev0 ++ evs ++ ev1) ++ [EvDisconnect peer timeout; EvCancel peer])).
Proof.
  split_and!.
  - intros Hnz. unfold fetch_headers, GENESIS_BLOCK_NUMBER.
    rewrite (proj2 (Z.eqb_neq _ _) Hnz). unfold max_consecutive_timeouts. split.
    + intros st' ev. split.
      * intros Ht. pose proof (timeouts_then_attempts 5 0 _ _ _ _ _ Ht) as Heq.
        simpl in Heq. by rewrite app_nil_r in Heq.
      * apply too_many_timeouts_inv.
    + intros k st1 ev1 r st2 ev2 Hk Ht E Hne.
      replace 5%nat with (k + S (4 - k))%nat by lia.
      rewrite (timeouts_then_attempts _ _ _ _ _ _ _ Ht), fetch_attempts_S, E.
      destruct r as [|[]]; done.
  - destruct (fetch_headers start_block peer st) as [[r st'] ev] eqn:Ef.
    destruct (fetch_headers_spec _ _ _ _ _ _ Ef) as (_&?&?&?&?&_). done.
  - reflexivity.
  - intros n st1 ev1 E. by rewrite fetch_attempts_S, E.
  - intros n r st1 ev1 E Hne. rewrite fetch_attempts_S, E.
    destruct r as [|[]]; done.
  - reflexivity.
  - intros hi st1 ev1 E. unfold _process_announcements. by rewrite E.
  - intros hi sta start st0 ev0 st' evs st1 ev1 Hex Hg Hit Hlt Ef.
    unfold _process_announcements.
    by rewrite (loop_fetch_error _ _ _ _ _ _ _ _ _ _ _ _ Hex Hg Hit Hlt Ef).
Qed.

(** C10.  An empty [headers] reply to a batch request raises
    [EmptyGetBlockHeadersReply].  Raised by a fetch of the fetch loop, at
    whatever iteration, it leaves [process_announcement] as it is, and
    the processor's last handler drops the peer: the peer's entry in
    [LastProcessedAnnouncements] is removed and the peer is cancelled,
    with no disconnect sent.  Raised by the first-contact fetch of
    [get_sync_start_block] it is turned into
    [LESAnnouncementProcessingError] instead, and the peer is
    disconnected with [subprotocol_error]. *)
Theorem empty_batch_drops_peer peer head_info st :
  (∀ start st0 ev0 start' st' evs st1 ev1,
      coro_header_exists (headerdb st) (hi_block_hash head_info) = false →
      get_sync_start_block peer head_info st = (Ok start, st0, ev0) →
      iterations peer head_info start st0 start' st' evs →
      start' < hi_block_number head_info →
      fetch_headers start' peer st' = (Raise EmptyGetBlockHeadersReply, st1, ev1) →
      process_announcement peer head_info st =
        Some (Raise EmptyGetBlockHeadersReply, st1, ev0 ++ evs ++ ev1) ∧
      _process_announcements peer head_info st =
        Some (Ok Continue,
              set_last_processed_announcements (delete (peer_id peer)) st1,
              (ev0 ++ evs ++ ev1) ++ [EvCancel peer]))
  ∧ (coro_header_exists (headerdb st) (hi_block_hash head_info) = false →
     block_number (coro_get_canonical_head (headerdb st)) ≠ 0 →
     _last_processed_announcements st !! peer_id peer = None →
     ∀ st1 ev1,
       fetch_headers
         (Z.max 1 (block_number (coro_get_canonical_head (headerdb st))
                   - max_headers_fetch peer + 1)) peer st =
         (Raise EmptyGetBlockHeadersReply, st1, ev1) →
       _process_announcements peer head_info st =
         Some (Ok Continue,
               set_last_processed_announcements (delete (peer_id peer)) st1,
               ev1 ++ [EvDisconnect peer subprotocol_error; EvCancel peer]))
  ∧ (∀ start_block reply st1 ev1,
      _wait_for_reply (request_ids (issued st)) (set_issued S st) = (Ok reply, st1, ev1) →
      headers reply = Some [] →
      fetch_headers start_block peer st =
        (if start_block =? 0 then (Raise ValidationError, st, [])
         else (Raise EmptyGetBlockHeadersReply, st1,
               batch_request peer start_block (request_ids (issued st)) :: ev1)))
  ∧ (∀ fuel start_block st1 ev1,
      start_block < hi_block_number head_info →
      fetch_headers start_block peer st = (Raise EmptyGetBlockHeadersReply, st1, ev1) →
      sync_loop (S fuel) peer head_info start_block st =
        Some (Raise EmptyGetBlockHeadersReply, st1, ev1))
  ∧ (∀ st1 ev1,
      process_announcement peer head_info st =
        Some (Raise EmptyGetBlockHeadersReply, st1, ev1) →
      _process_announcements peer head_info st =
        Some (Ok Continue,
              set_last_processed_announcements (delete (peer_id peer)) st1,
              ev1 ++ [EvCancel peer])).
Proof.
  split_and!.
  - intros start st0 ev0 start' st' evs st1 ev1 Hex Hg Hit Hlt Ef.
    pose proof (loop_fetch_error _ _ _ _ _ _ _ _ _ _ _ _ Hex Hg Hit Hlt Ef) as Hp.
    split; [done|]. unfold _process_announcements. by rewrite Hp.
  - intros Hex Hnz Hnone st1 ev1 Ef.
    destruct (get_sync_start_block_cases peer head_info st) as (_ & Hfirst & _).
    specialize (Hfirst Hnz Hnone). simpl in Hfirst. rewrite Ef in Hfirst.
    unfold _process_announcements, process_announcement. by rewrite Hex, Hfirst.
  - intros start reply st1 ev1 Hw Hh. unfold fetch_headers, GENESIS_BLOCK_NUMBER.
    destruct (start =? 0); [done|].
    unfold max_consecutive_timeouts. rewrite fetch_attempts_S, fetch_starting_at_eq.
    simpl. by rewrite Hw, Hh.
  - intros fuel start st1 ev1 Hlt Ef. apply Z.ltb_lt in Hlt.
    by rewrite sync_loop_unfold, Hlt, Ef.
  - intros st1 ev1 E. unfold _process_announcements. by rewrite E.
Qed.

End Further.

(** ** The further properties on explicit inputs *)

Lemma pending_replies_well_formed_witness :
  pending_wf waiting ∧ pending_wf (_wait_for_reply 7 waiting).1.2.
Proof.
  assert (pending_wf waiting) as Hwf.
  { intros rid cb Hl. unfold waiting in Hl. simpl in Hl.
    apply lookup_singleton_Some in Hl as [_ <-]. simpl. lia. }
  split; [exact Hwf|].
  exact (proj2 (proj2 (pending_replies_well_formed waiting) Hwf) 7).
Defined.

Lemma wait_for_reply_success_witness :
  pending_wf fresh ∧
  ∃ reply st' ev,
    _wait_for_reply 0 fresh = (Ok reply, st', ev) ∧ request_id reply = Some 0 ∧
    _pending_replies st' !! 0 = None.
Proof.
  assert (pending_wf fresh) as Hwf
    by (intros rid cb Hl; unfold fresh in Hl; simpl in Hl; by rewrite lookup_empty in Hl).
  split; [exact Hwf|].
  destruct (_wait_for_reply 0 fresh) as [[r st'] ev] eqn:E.
  assert (r = Ok (headers_reply 0 [H 1 x01 x00; H 2 x02 x01; H 3 x03 x02])) as ->
    by (by vm_compute in E; injection E as <- _ _).
  destruct (wait_for_reply_success 0 fresh _ st' ev Hwf E) as (Hid & Hp & _).
  eauto 10.
Defined.

Lemma fetch_headers_outcomes_witness :
  ∃ batch st' ev, fetch_headers 1 peer1 fresh = (Ok batch, st', ev) ∧ batch ≠ [] ∧ 1 ≠ 0.
Proof.
  destruct (fetch_headers 1 peer1 fresh) as [[r st'] ev] eqn:E.
  assert (r = Ok [H 1 x01 x00; H 2 x02 x01; H 3 x03 x02]) as ->
    by (by vm_compute in E; injection E as <- _ _).
  pose proof (fetch_headers_outcomes 1 peer1 fresh _ st' ev E) as Hout. eauto 10.
Defined.

Lemma import_stops_at_rejected_header_witness :
  imported (headerdb silent) [H 1 x01 x00]
    [EvValidate (H 1 x01 x00) genesis true; EvPersist (H 1 x01 x00)]
    [H 1 x01 x00; genesis] ∧
  ∃ evs,
    _import_headers_from_peer ([H 1 x01 x00] ++ H 5 x05 x01 :: [H 6 x06 x05]) peer1 silent =
      (Raise (LESAnnouncementProcessingError (InvalidHeader peer1 (H 5 x05 x01))),
       set_headerdb (λ db, foldl coro_persist_header db [H 1 x01 x00]) silent, evs) ∧
    persisted evs = [H 1 x01 x00].
Proof.
  assert (imported (headerdb silent) [H 1 x01 x00]
            [EvValidate (H 1 x01 x00) genesis true; EvPersist (H 1 x01 x00)]
            [H 1 x01 x00; genesis]) as Himp.
  { apply imported_cons; [reflexivity..|apply imported_nil]. }
  split; [exact Himp|].
  apply (import_stops_at_rejected_header _ _ _ _ _ _ _ Himp).
  right. exists (H 1 x01 x00). split; reflexivity.
Defined.

Lemma import_stops_at_orphan_header_witness :
  imported (headerdb silent) [H 1 x01 x00]
    [EvValidate (H 1 x01 x00) genesis true; EvPersist (H 1 x01 x00)]
    [H 1 x01 x00; genesis] ∧
  _import_headers_from_peer ([H 1 x01 x00] ++ H 5 x05 x55 :: [H 6 x06 x05]) peer1 silent =
    (Raise HeaderNotFound,
     set_headerdb (λ db, foldl coro_persist_header db [H 1 x01 x00]) silent,
     [EvValidate (H 1 x01 x00) genesis true; EvPersist (H 1 x01 x00)]).
Proof.
  assert (imported (headerdb silent) [H 1 x01 x00]
            [EvValidate (H 1 x01 x00) genesis true; EvPersist (H 1 x01 x00)]
            [H 1 x01 x00; genesis]) as Himp.
  { apply imported_cons; [reflexivity..|apply imported_nil]. }
  split; [exact Himp|].
  exact (import_stops_at_orphan_header [H 1 x01 x00] (H 5 x05 x55) [H 6 x06 x05] peer1
           silent _ _ Himp eq_refl eq_refl).
Defined.

Lemma fetch_loop_persists_only_validated_witness :
  ∃ r st' ev,
    sync_loop 2 peer1 (announce 3 x03 0) 1 fresh = Some (r, st', ev) ∧
    guarded ev ∧
    headerdb st' = foldl coro_persist_header (headerdb fresh) (persisted ev).
Proof.
  destruct (sync_loop 2 peer1 (announce 3 x03 0) 1 fresh) as [[[r st'] ev]|] eqn:E;
    [|by vm_compute in E].
  exists r, st', ev. split; [reflexivity|].
  exact (fetch_loop_persists_only_validated _ _ _ _ _ _ _ _ E).
Defined.

Lemma get_sync_start_block_outcomes_witness :
  ∃ st' ev,
    get_sync_start_block peer1 (announce 9 x09 0) first_contact = (Ok 1, st', ev) ∧ 1 ≤ 1.
Proof.
  destruct (get_sync_start_block peer1 (announce 9 x09 0) first_contact)
    as [[r st'] ev] eqn:E.
  assert (r = Ok 1) as -> by (by vm_compute in E; injection E as <- _ _).
  exists st', ev. split; [reflexivity|].
  exact (proj1 (get_sync_start_block_outcomes _ _ _ _ _ _ E)).
Defined.

Lemma process_announcement_effects_witness :
  ∃ r st' ev,
    process_announcement peer1 (announce 3 x03 0) fresh = Some (r, st', ev) ∧
    _last_processed_announcements st' = _last_processed_announcements fresh ∧
    headerdb st' = foldl coro_persist_header (headerdb fresh) (persisted ev).
Proof.
  destruct (process_announcement peer1 (announce 3 x03 0) fresh) as [[[r st'] ev]|] eqn:E;
    [|by vm_compute in E].
  exists r, st', ev. split; [reflexivity|].
  destruct (process_announcement_effects _ _ _ _ _ _ E) as (?&_&?). done.
Defined.


Lemma processor_turn_witness :
  ∃ st1 ev1 c st' ev2,
    process_announcement peer1 (announce 3 x03 0) empty_handed =
      Some (Raise EmptyGetBlockHeadersReply, st1, ev1) ∧
    _process_announcements peer1 (announce 3 x03 0) empty_handed =
      Some (Ok c, st', ev1 ++ ev2) ∧
    c = Continue ∧ _last_processed_announcements st' !! 1%nat = None ∧
    ev2 = [EvCancel peer1].
Proof.
  destruct (process_announcement peer1 (announce 3 x03 0) empty_handed)
    as [[[r st1] ev1]|] eqn:E; [|by vm_compute in E].
  assert (r = Raise EmptyGetBlockHeadersReply) as ->
    by (by vm_compute in E; injection E as <- _ _).
  destruct (processor_turn _ _ _ _ _ _ E) as (c & st' & ev2 & Hp & _ & _ & Hc & Hl & Hev).
  exists st1, ev1, c, st', ev2. done.
Defined.

Lemma fetch_loop_reaches_head_witness :
  ∃ st' ev header,
    sync_loop 2 peer1 (announce 3 x03 0) 1 fresh = Some (Ok tt, st', ev) ∧
    last (persisted ev) = Some header ∧ 3 ≤ block_number header.
Proof.
  destruct (sync_loop 2 peer1 (announce 3 x03 0) 1 fresh) as [[[r st'] ev]|] eqn:E;
    [|by vm_compute in E].
  assert (r = Ok tt) as -> by (by vm_compute in E; injection E as <- _ _).
  destruct (fetch_loop_reaches_head _ _ _ _ _ _ _ E)
    as [(Hle & _)|(header & Hlast & Hle)]; [by vm_compute in Hle|].
  exists st', ev, header. done.
Defined.

Lemma lookup_replies_witness :
  cache_get [x07] (body_cache (caches bodiless)) = None ∧
  (get_block_body_by_hash [x07] bodiless).1.1 = Raise BlockNotFound.
Proof.
  split; [reflexivity|].
  destruct (_wait_for_reply (request_ids (issued bodiless)) (set_issued S bodiless))
    as [[r st1] ev1] eqn:E.
  rewrite (proj1 (lookup_replies [x07] [] bodiless r st1 ev1 E) eq_refl).
  vm_compute in E. by injection E as <- _ _.
Defined.

(** ** The revised statements on explicit inputs *)

(** The pool's choice follows what [_run] records: once another peer has
    announced a heavier head, the lookups go to that peer. *)
Example announce_moves_highest_td_peer :
  highest_td_peer silent = peer1 ∧
  highest_td_peer (run_inbound [InAnnounce peer2 (announce 9 x09 0)] silent).1.2 = peer2.
Proof. split; reflexivity. Qed.

Lemma fetch_headers_retries_witness :
  1 ≠ 0 ∧
  ∃ st' ev,
    fetch_headers 1 peer1 silent = (Raise TooManyTimeouts, st', ev) ∧
    timeouts_in_a_row peer1 1 5 silent st' ev.
Proof.
  assert (1 ≠ 0) as Hnz by done. split; [exact Hnz|].
  destruct (fetch_headers 1 peer1 silent) as [[r st'] ev] eqn:E.
  assert (r = Raise TooManyTimeouts) as ->
    by (by vm_compute in E; injection E as <- _ _).
  exists st', ev. split; [reflexivity|].
  exact (proj2 (proj1 (proj1 (fetch_headers_retries 1 peer1 silent) Hnz) st' ev) E).
Defined.

Lemma empty_batch_drops_peer_witness :
  ∃ st1 ev1,
    process_announcement peer1 (announce 3 x03 0) runs_dry =
      Some (Raise EmptyGetBlockHeadersReply, st1, ev1) ∧
    _process_announcements peer1 (announce 3 x03 0) runs_dry =
      Some (Ok Continue, set_last_processed_announcements (delete 1%nat) st1,
            ev1 ++ [EvCancel peer1]).
Proof.
  eexists _, _.
  eapply (proj1 (empty_batch_drops_peer peer1 (announce 3 x03 0) runs_dry)).
  - reflexivity.
  - vm_compute. reflexivity.
  - eapply one_more_iteration;
      [reflexivity|vm_compute; reflexivity|vm_compute; reflexivity|apply no_iteration].
  - reflexivity.
  - vm_compute. reflexivity.
Defined.
